(** * Interaction logic of the landing page (src/src/App.tsx)

    A shallow embedding of the client-side logic of [App.tsx]: the
    reduced-motion hook, the scroll-spy hook [useActiveSection], the
    page-wide [MouseGlow], the [TiltCard] pointer handlers, the typewriter
    title [GradientTypeTitle] and the [ContactForm] state machine.

    Conventions of the embedding.
    - A JavaScript string is the list of its UTF-16 code units
      ([JSString]); [length] is the [.length] of the source.
    - A JavaScript number that the code computes with is an exact
      rational ([Q]); statements about numbers are up to [==].  The
      rounding of binary64 arithmetic and the values NaN and Infinity are
      outside the model.
    - React state is explicit: a hook's state is a record, a setter is a
      function on that record, an effect is a function run after the
      render that captured its dependencies. *)

From Stdlib Require Import String Ascii List Bool Arith NArith QArith Qminmax Lia Lqa.
From Stdlib Require Import Sorted Permutation.
Import ListNotations.

(* ================================================================== *)
(** * Part I: definitions *)
(* ================================================================== *)

(** ** JavaScript strings *)

Module JS.

(** A string is a sequence of UTF-16 code units. *)
Definition JSString := list N.

(** [js "abc"] is the JavaScript literal ["abc"], for literals whose
    characters are below U+0100. *)
Definition js (s : string) : JSString := map N_of_ascii (list_ascii_of_string s).

Definition str_eqb (a b : JSString) : bool :=
  if list_eq_dec N.eq_dec a b then true else false.

(** WhiteSpace and LineTerminator code units of ECMAScript: what
    [String.prototype.trim] strips and what [\s] matches. *)
Definition is_whitespace (c : N) : bool :=
  ((9 <=? c) && (c <=? 13) || (c =? 32) || (c =? 160) || (c =? 5760)
   || (8192 <=? c) && (c <=? 8202) || (c =? 8232) || (c =? 8233)
   || (c =? 8239) || (c =? 8287) || (c =? 12288) || (c =? 65279))%N.

Fixpoint dropWhile (p : N -> bool) (s : JSString) : JSString :=
  match s with
  | [] => []
  | c :: s' => if p c then dropWhile p s' else s
  end.

Definition trimStart (s : JSString) : JSString := dropWhile is_whitespace s.
Definition trimEnd (s : JSString) : JSString := rev (dropWhile is_whitespace (rev s)).

(** [s.trim()] *)
Definition trim (s : JSString) : JSString := trimEnd (trimStart s).

(** [s.slice(0, i)] for a count [i >= 0]. *)
Definition slice0 (s : JSString) (i : nat) : JSString := firstn i s.

(** *** Regular expressions

    The fragment of the regular-expression syntax that [App.tsx] uses:
    character classes, concatenation, [+], between the anchors [^] and [$].
    [RegExp.prototype.test] on an anchored pattern without back-references
    answers whether the whole input is in the language of the pattern;
    the matcher below decides that by derivatives. *)

Inductive regex : Type :=
| Void : regex
| Eps : regex
| Class : (N -> bool) -> regex
| Cat : regex -> regex -> regex
| Alt : regex -> regex -> regex
| Star : regex -> regex.

(** [r+] *)
Definition Plus (r : regex) : regex := Cat r (Star r).

Fixpoint nullable (r : regex) : bool :=
  match r with
  | Void => false
  | Eps => true
  | Class _ => false
  | Cat a b => nullable a && nullable b
  | Alt a b => nullable a || nullable b
  | Star _ => true
  end.

Fixpoint deriv (c : N) (r : regex) : regex :=
  match r with
  | Void => Void
  | Eps => Void
  | Class p => if p c then Eps else Void
  | Cat a b =>
      if nullable a then Alt (Cat (deriv c a) b) (deriv c b)
      else Cat (deriv c a) b
  | Alt a b => Alt (deriv c a) (deriv c b)
  | Star a => Cat (deriv c a) (Star a)
  end.

(** [/^r$/.test(s)] *)
Fixpoint test (r : regex) (s : JSString) : bool :=
  match s with
  | [] => nullable r
  | c :: s' => test (deriv c r) s'
  end.

(** The language of a pattern, as a relation. *)
Inductive matches : regex -> JSString -> Prop :=
| m_eps : matches Eps []
| m_class : forall (p : N -> bool) c, p c = true -> matches (Class p) [c]
| m_cat : forall a b s t, matches a s -> matches b t -> matches (Cat a b) (s ++ t)
| m_alt_l : forall a b s, matches a s -> matches (Alt a b) s
| m_alt_r : forall a b s, matches b s -> matches (Alt a b) s
| m_star_nil : forall a, matches (Star a) []
| m_star_cons : forall a s t, matches a s -> matches (Star a) t -> matches (Star a) (s ++ t).

End JS.

Import JS.

(* ------------------------------------------------------------------ *)
(** ** [useReducedMotionPref] *)

Module useReducedMotionPref.

(** [useState(false)]: the value every first render sees. *)
Definition initial : bool := false.

(** The mount effect and the change listener both run
    [onChange = () => setReduced(mq.matches)]. *)
Definition onChange (mq_matches : bool) : bool := mq_matches.

End useReducedMotionPref.

(* ------------------------------------------------------------------ *)
(** ** [useActiveSection] *)

Module useActiveSection.

(** The part of an [HTMLElement] the hook reads. *)
Record Element : Type := { el_id : JSString }.

(** The elements of the page, in tree order. *)
Definition Document := list Element.

(** [document.getElementById(id)]: the first element, in tree order,
    whose id is [id]; the empty string is the id of no element. *)
Definition getElementById (doc : Document) (id : JSString) : option Element :=
  match id with
  | [] => None
  | _ => find (fun el => str_eqb (el_id el) id) doc
  end.

(** An [IntersectionObserverEntry]. *)
Record Entry : Type := {
  target : Element;
  intersectionRatio : Q;
  isIntersecting : bool
}.

(** [useState(ids[0] ?? "")] *)
Definition initial (ids : list JSString) : JSString :=
  match ids with
  | [] => js ""
  | id :: _ => id
  end.

(** [ids.map((id) => document.getElementById(id)).filter(Boolean)] *)
Definition els (doc : Document) (ids : list JSString) : list Element :=
  flat_map (fun id => match getElementById doc id with
                      | Some el => [el]
                      | None => []
                      end) ids.

(** [(a, b) => (b.intersectionRatio ?? 0) - (a.intersectionRatio ?? 0)];
    [intersectionRatio] is a number, so [?? 0] leaves it as it is. *)
Definition compareFn (a b : Entry) : Q := intersectionRatio b - intersectionRatio a.

Definition Qltb (x y : Q) : bool := negb (Qle_bool y x).

(** [Array.prototype.sort] is stable: [x], which stood before all of [l],
    moves behind [y] only when the comparator is positive. *)
Fixpoint insert (cmp : Entry -> Entry -> Q) (x : Entry) (l : list Entry) : list Entry :=
  match l with
  | [] => [x]
  | y :: l' => if Qltb 0 (cmp x y) then y :: insert cmp x l' else x :: l
  end.

Fixpoint sort (cmp : Entry -> Entry -> Q) (l : list Entry) : list Entry :=
  match l with
  | [] => []
  | x :: l' => insert cmp x (sort cmp l')
  end.

(** Descending order of ratio: [a] may stand before [b]. *)
Definition descending (a b : Entry) : Prop := intersectionRatio b <= intersectionRatio a.

(** A string is truthy when it is not empty. *)
Definition truthy (s : JSString) : bool :=
  match s with
  | [] => false
  | _ => true
  end.

(** The observer callback, as a function of the batch and of the current
    state; the result is the state after the batch. *)
Definition onIntersect (entries : list Entry) (active : JSString) : JSString :=
  let visible := hd_error (sort compareFn (filter isIntersecting entries)) in
  match visible with
  | Some v => if truthy (el_id (target v)) then el_id (target v) else active
  | None => active
  end.

(** The observer reports only on elements it was told to observe:
    [els.forEach((el) => io.observe(el))]. *)
Definition observed (doc : Document) (ids : list JSString) (entries : list Entry) : Prop :=
  Forall (fun e => In (target e) (els doc ids)) entries.

(** A sample on the element of id [id]. *)
Definition sample (id : string) (ratio : Q) (intersecting : bool) : Entry :=
  {| target := {| el_id := js id |};
     intersectionRatio := ratio;
     isIntersecting := intersecting |}.

(** The batch of two samples: [a] at ratio 0.5 and [b] at ratio 0.7,
    both intersecting. *)
Definition batch_ab : list Entry := [sample "a" 0.5 true; sample "b" 0.7 true].

(** A page with the sections [a] and [b], and the list that configures
    them. *)
Definition page_ab : Document := [{| el_id := js "a" |}; {| el_id := js "b" |}].
Definition ids_ab : list JSString := [js "a"; js "b"].

(** A list whose first id is empty (a nav item of href "#") before the
    id of a section of the page. *)
Definition ids_hash : list JSString := [js ""; js "a"].

(** The effect's dependency: [[ids.join("|")]].  The effect, and with
    it the observer, is set up again only when this string changes. *)
Fixpoint join (sep : JSString) (l : list JSString) : JSString :=
  match l with
  | [] => []
  | x :: l' =>
      match l' with
      | [] => x
      | _ => x ++ sep ++ join sep l'
      end
  end.

Definition deps (ids : list JSString) : JSString := join (js "|") ids.

(** An id without the separator [|]. *)
Definition barfree (id : JSString) : Prop := ~ In 124%N id.

(** [if (!els.length) return;]: whether the effect creates an observer. *)
Definition observes (doc : Document) (ids : list JSString) : bool :=
  match els doc ids with
  | [] => false
  | _ => true
  end.

(** The state after a run of batches, the first of the list first. *)
Definition batches (bs : list (list Entry)) (active : JSString) : JSString :=
  fold_left (fun a b => onIntersect b a) bs active.

(** The hook between two renders: the list passed at the last render,
    the dependency of the last run of the effect, the elements that the
    observer of that run watches (none when no observer was created),
    and the state. *)
Record Hook : Type := {
  h_ids : list JSString;
  h_key : JSString;
  h_observed : list Element;
  h_active : JSString
}.

(** The first render and its effect. *)
Definition mount (doc : Document) (ids : list JSString) : Hook :=
  {| h_ids := ids; h_key := deps ids; h_observed := els doc ids;
     h_active := initial ids |}.

(** A later render, with the list [ids']: [useState] keeps the state;
    the effect is cleaned up ([io.disconnect()]) and run again only when
    its dependency has changed. *)
Definition rerender (doc : Document) (ids' : list JSString) (h : Hook) : Hook :=
  if str_eqb (deps ids') (h_key h) then
    {| h_ids := ids'; h_key := h_key h; h_observed := h_observed h;
       h_active := h_active h |}
  else
    {| h_ids := ids'; h_key := deps ids'; h_observed := els doc ids';
       h_active := h_active h |}.

(** The observer calls back with a batch. *)
Definition deliver (entries : list Entry) (h : Hook) : Hook :=
  {| h_ids := h_ids h; h_key := h_key h; h_observed := h_observed h;
     h_active := onIntersect entries (h_active h) |}.

(** The observer reports only on the elements it watches. *)
Definition watched (h : Hook) (entries : list Entry) : Prop :=
  Forall (fun e => In (target e) (h_observed h)) entries.

(** The states of a hook mounted with the list [ids0], when the lists
    passed at the later renders are among [allowed]. *)
Inductive reaches (doc : Document) (allowed : list JSString -> Prop)
    (ids0 : list JSString) : Hook -> Prop :=
| reaches_mount : reaches doc allowed ids0 (mount doc ids0)
| reaches_rerender : forall h ids',
    reaches doc allowed ids0 h -> allowed ids' ->
    reaches doc allowed ids0 (rerender doc ids' h)
| reaches_batch : forall h entries,
    reaches doc allowed ids0 h -> watched h entries ->
    reaches doc allowed ids0 (deliver entries h).

(** Any list may be passed at a later render. *)
Definition any_list (l : list JSString) : Prop := True.

(** Every render passes the list [ids], as [App] does. *)
Definition same_list (ids l : list JSString) : Prop := l = ids.

(** No list that is passed resolves to an element. *)
Definition unresolved (doc : Document) (l : list JSString) : Prop :=
  observes doc l = false.

End useActiveSection.

(* ------------------------------------------------------------------ *)
(** ** [MouseGlow] *)

Module MouseGlow.

(** [radial-gradient(900px circle at px% py%, ...)]: the two numbers the
    template string interpolates. *)
Record Gradient : Type := { atX : Q; atY : Q }.

(** The transform of the two spring values. *)
Definition bg (lx ly : Q) : Gradient :=
  let px := Qmax 0 (Qmin 100 lx) in
  let py := Qmax 0 (Qmin 100 ly) in
  {| atX := px; atY := py |}.

(** [a || 1] on a number. *)
Definition or1 (a : Q) : Q := if Qeq_bool a 0 then 1 else a.

(** The [mousemove] listener: the values set on [x] and [y]. *)
Definition onMove (clientX clientY innerWidth innerHeight : Q) : Q * Q :=
  let w := or1 innerWidth in
  let h := or1 innerHeight in
  ((clientX / w) * 100, (clientY / h) * 100).

(** What the component renders: nothing when motion is reduced. *)
Definition render (reduced : bool) (sx sy : Q) : option Gradient :=
  if reduced then None else Some (bg sx sy).

End MouseGlow.

(* ------------------------------------------------------------------ *)
(** ** [TiltCard] *)

Module TiltCard.

Record Tilt : Type := { rx : Q; ry : Q; glowX : Q; glowY : Q }.

Record PointerEvent : Type := { clientX : Q; clientY : Q }.

(** [el.getBoundingClientRect()] *)
Record DOMRect : Type := { r_left : Q; r_top : Q; r_width : Q; r_height : Q }.

(** [useState({ rx: 0, ry: 0, glowX: 50, glowY: 50 })] *)
Definition initial : Tilt := {| rx := 0; ry := 0; glowX := 50; glowY := 50 |}.

(** [setTilt(v)] replaces the state. *)
Definition setTilt (v : Tilt) (_ : Tilt) : Tilt := v.

Definition normX (e : PointerEvent) (r : DOMRect) : Q := (clientX e - r_left r) / r_width r.
Definition normY (e : PointerEvent) (r : DOMRect) : Q := (clientY e - r_top r) / r_height r.

Definition onMove (e : PointerEvent) (r : DOMRect) : Tilt -> Tilt :=
  let px := normX e r in
  let py := normY e r in
  let ry := (px - 0.5) * 10 in
  let rx := - (py - 0.5) * 10 in
  setTilt {| rx := rx; ry := ry; glowX := px * 100; glowY := py * 100 |}.

Definition onLeave : Tilt -> Tilt :=
  setTilt {| rx := 0; ry := 0; glowX := 50; glowY := 50 |}.

(** The two listeners of the card, and a history of their events. *)
Inductive Event : Type :=
| pointermove : PointerEvent -> DOMRect -> Event
| pointerleave : Event.

Definition handle (ev : Event) : Tilt -> Tilt :=
  match ev with
  | pointermove e r => onMove e r
  | pointerleave => onLeave
  end.

Definition run (evs : list Event) (t : Tilt) : Tilt :=
  fold_left (fun t' ev => handle ev t') evs t.

(** The pointer is on the card: inside a bounding box of positive size. *)
Definition inside (e : PointerEvent) (r : DOMRect) : Prop :=
  0 < r_width r /\ 0 < r_height r /\
  r_left r <= clientX e /\ clientX e <= r_left r + r_width r /\
  r_top r <= clientY e /\ clientY e <= r_top r + r_height r.

Inductive reachable : Tilt -> Prop :=
| reach_initial : reachable initial
| reach_move : forall t e r, reachable t -> inside e r -> reachable (onMove e r t)
| reach_leave : forall t, reachable t -> reachable (onLeave t).

Definition bounded (t : Tilt) : Prop :=
  (-5 <= rx t /\ rx t <= 5) /\ (-5 <= ry t /\ ry t <= 5) /\
  (0 <= glowX t /\ glowX t <= 100) /\ (0 <= glowY t /\ glowY t <= 100).

End TiltCard.

(* ------------------------------------------------------------------ *)
(** ** [GradientTypeTitle] *)

Module GradientTypeTitle.

(** The component, for a target string [full].  [reduced] is the value of
    [useReducedMotionPref] at the last render; [pending] is a
    [setReduced] call that no render has taken up yet; [timer] is the
    live interval, with the counter [i] of its closure. *)
Record State : Type := {
  reduced : bool;
  pending : option bool;
  text : JSString;
  done : bool;
  timer : option nat
}.

Definition set_timer (t : option nat) (st : State) : State :=
  {| reduced := reduced st; pending := pending st; text := text st;
     done := done st; timer := t |}.

Definition set_pending (p : option bool) (st : State) : State :=
  {| reduced := reduced st; pending := p; text := text st;
     done := done st; timer := timer st |}.

Definition set_reduced (r : bool) (st : State) : State :=
  {| reduced := r; pending := pending st; text := text st;
     done := done st; timer := timer st |}.

(** The body of the effect of a render that saw [r]:
    [if (reduced) return; let i = 0; const t = window.setInterval(...)]. *)
Definition effect (r : bool) (st : State) : State :=
  if r then st else set_timer (Some 0%nat) st.

(** The cleanup of the effect: [window.clearInterval(t)]. *)
Definition cleanup (st : State) : State := set_timer None st.

(** The first render and the effects that follow it, in hook order: the
    render reads [useState(false)] of [useReducedMotionPref], and the
    initial values [reduced ? full : ""] and [reduced] of [text] and
    [done]; then the hook's effect calls [setReduced(mq.matches)], and
    the component's effect runs with the [reduced] of that render. *)
Definition mount (full : JSString) (mq_matches : bool) : State :=
  let r := useReducedMotionPref.initial in
  effect r
    {| reduced := r;
       pending := Some (useReducedMotionPref.onChange mq_matches);
       text := if r then full else js "";
       done := r;
       timer := None |}.

(** The next render: it takes up the pending [setReduced]; when the value
    differs, the dependency [[reduced]] has changed, so the old effect is
    cleaned up and the effect runs again.  [useState] keeps [text] and
    [done]. *)
Definition render (st : State) : State :=
  match pending st with
  | None => st
  | Some v =>
      if Bool.eqb v (reduced st) then set_pending None st
      else effect v (cleanup (set_reduced v (set_pending None st)))
  end.

(** The media query reports a change. *)
Definition change (mq_matches : bool) (st : State) : State :=
  set_pending (Some (useReducedMotionPref.onChange mq_matches)) st.

(** One firing of the interval callback:
    [i += 1; setText(full.slice(0, i));
     if (i >= full.length) { window.clearInterval(t); setDone(true); }] *)
Definition tick (full : JSString) (st : State) : State :=
  match timer st with
  | None => st
  | Some i =>
      let i' := S i in
      let txt := slice0 full i' in
      if (length full <=? i')%nat then
        {| reduced := reduced st; pending := pending st; text := txt;
           done := true; timer := None |}
      else
        {| reduced := reduced st; pending := pending st; text := txt;
           done := done st; timer := Some i' |}
  end.

Fixpoint ticks (full : JSString) (k : nat) (st : State) : State :=
  match k with
  | O => st
  | S k' => tick full (ticks full k' st)
  end.

(** The component once the page has settled after loading: mounted, and
    rendered again with the preference that the hook's effect read. *)
Definition start (full : JSString) (mq_matches : bool) : State :=
  render (mount full mq_matches).

(** What happens to the mounted component. *)
Inductive Event : Type :=
| Tick : Event
| Render : Event
| Change : bool -> Event.

Definition step (full : JSString) (ev : Event) (st : State) : State :=
  match ev with
  | Tick => tick full st
  | Render => render st
  | Change m => change m st
  end.

Definition run (full : JSString) (evs : list Event) (st : State) : State :=
  fold_left (fun s ev => step full ev s) evs st.


(** The headline of the page. *)
Definition headline : JSString :=
  js "Marketing de vanguarda para marcas que querem dominar o amanh" ++ [227%N] ++ js ".".

End GradientTypeTitle.

(* ------------------------------------------------------------------ *)
(** ** [ContactForm] *)

Module ContactForm.

Inductive Status : Type := idle | sending | sent.

Definition status_eqb (a b : Status) : bool :=
  match a, b with
  | idle, idle | sending, sending | sent, sent => true
  | _, _ => false
  end.

Record Form : Type := {
  name : JSString;
  email : JSString;
  company : JSString;
  goal : JSString;
  message : JSString;
  status : Status
}.

(** The six [useState] initial values. *)
Definition initial : Form :=
  {| name := js ""; email := js ""; company := js "";
     goal := js "Crescer com performance"; message := js ""; status := idle |}.

(** [[^\s@]] *)
Definition plain (c : N) : bool := negb (is_whitespace c || (c =? 64)%N).

(** [/^[^\s@]+@[^\s@]+\.[^\s@]+$/] *)
Definition emailPattern : regex :=
  Cat (Plus (Class plain))
    (Cat (Class (N.eqb 64))
      (Cat (Plus (Class plain))
        (Cat (Class (N.eqb 46))
          (Plus (Class plain))))).

Definition canSend (f : Form) : bool :=
  let okEmail := test emailPattern (trim (email f)) in
  (2 <=? length (trim (name f)))%nat && okEmail
  && (10 <=? length (trim (message f)))%nat
  && negb (status_eqb (status f) sending).

(** The state setters of the component. *)
Inductive Setter : Type :=
| setName : JSString -> Setter
| setEmail : JSString -> Setter
| setCompany : JSString -> Setter
| setGoal : JSString -> Setter
| setMessage : JSString -> Setter
| setStatus : Status -> Setter.

Definition call (a : Setter) (f : Form) : Form :=
  match a with
  | setName v =>
      {| name := v; email := email f; company := company f; goal := goal f;
         message := message f; status := status f |}
  | setEmail v =>
      {| name := name f; email := v; company := company f; goal := goal f;
         message := message f; status := status f |}
  | setCompany v =>
      {| name := name f; email := email f; company := v; goal := goal f;
         message := message f; status := status f |}
  | setGoal v =>
      {| name := name f; email := email f; company := company f; goal := v;
         message := message f; status := status f |}
  | setMessage v =>
      {| name := name f; email := email f; company := company f; goal := goal f;
         message := v; status := status f |}
  | setStatus s =>
      {| name := name f; email := email f; company := company f; goal := goal f;
         message := message f; status := s |}
  end.

(** The body of an [async] function: setter calls, and [await]s of a
    timer of so many milliseconds. *)
Inductive Async : Type :=
| Return : Async
| Call : Setter -> Async -> Async
| Await : nat -> Async -> Async.

(** [onSubmit], in the render whose state is [f] (the closure holds the
    [canSend] of that render). *)
Definition onSubmit (f : Form) : Async :=
  if negb (canSend f) then Return
  else
    Call (setStatus sending)
    (Await 650
    (Call (setStatus sent)
    (Await 900
    (Call (setStatus idle)
    (Call (setName (js ""))
    (Call (setEmail (js ""))
    (Call (setCompany (js ""))
    (Call (setGoal (js "Crescer com performance"))
    (Call (setMessage (js ""))
     Return))))))))).

Definition calls (l : list Setter) (f : Form) : Form := fold_left (fun g a => call a g) l f.

(** The forms that can be seen while an [async] body runs: the form at
    each [await] and the form at the end.  [edits] holds, for each
    [await] in turn, the setter calls that other handlers (the [onChange]
    of the fields) make while its timer is pending. *)
Fixpoint trace (edits : list (list Setter)) (p : Async) (f : Form) : list Form :=
  match p with
  | Return => [f]
  | Call a k => trace edits k (call a f)
  | Await _ k =>
      f :: match edits with
           | [] => trace [] k f
           | es :: rest => trace rest k (calls es f)
           end
  end.

(** The submit event on a form in state [f]. *)
Definition submit (edits : list (list Setter)) (f : Form) : list Form :=
  trace edits (onSubmit f) f.

(** An [async] body runs until its next [await]: the form it leaves and
    the rest that the timer will resume, if any. *)
Fixpoint resume (p : Async) (f : Form) : Form * option Async :=
  match p with
  | Return => (f, None)
  | Call a k => resume k (call a f)
  | Await _ k => (f, Some k)
  end.

(** An [async] body run to its end, every timer fired in turn. *)
Fixpoint finish (p : Async) (f : Form) : Form :=
  match p with
  | Return => f
  | Call a k => finish k (call a f)
  | Await _ k => finish k f
  end.

(** The [onChange] handlers of the five fields. *)
Definition is_edit (a : Setter) : bool :=
  match a with
  | setStatus _ => false
  | _ => true
  end.

(** The form together with the bodies suspended on a timer. *)
Record Loop : Type := { form : Form; timers : list Async }.

Definition suspended (k : option Async) : list Async :=
  match k with
  | Some p => [p]
  | None => []
  end.

(** The bodies that the timers of an [async] body resume. *)
Fixpoint continuations (p : Async) : list Async :=
  match p with
  | Return => []
  | Call _ k => continuations k
  | Await _ k => k :: continuations k
  end.

(** One turn of the event loop: a submit event, the firing of one of
    the pending timers, or an edit of a field.  Any pending timer may
    fire, so every order in which the timers can come due is covered.
    The flag tells whether the turn was the firing of a timer that ran
    its body to the end. *)
Inductive turn : Loop -> bool -> Loop -> Prop :=
| turn_submit : forall f ts,
    turn {| form := f; timers := ts |} false
         {| form := fst (resume (onSubmit f) f);
            timers := ts ++ suspended (snd (resume (onSubmit f) f)) |}
| turn_fire : forall f ts1 p ts2,
    turn {| form := f; timers := ts1 ++ p :: ts2 |}
         (match snd (resume p f) with None => true | Some _ => false end)
         {| form := fst (resume p f);
            timers := ts1 ++ suspended (snd (resume p f)) ++ ts2 |}
| turn_edit : forall f ts a,
    is_edit a = true ->
    turn {| form := f; timers := ts |} false {| form := call a f; timers := ts |}.

(** The states of the loop, from the mounted form. *)
Inductive running : Loop -> Prop :=
| running_mounted : running {| form := initial; timers := [] |}
| running_turn : forall l b l', running l -> turn l b l' -> running l'.

(** "local@domain.tld": three non-empty runs of characters that are
    neither white space nor [@], joined by one [@] and one dot. *)
Definition email_shape (s : JSString) : Prop :=
  exists l d t : JSString,
    s = l ++ [64%N] ++ d ++ [46%N] ++ t /\
    l <> [] /\ d <> [] /\ t <> [] /\
    Forall (fun c => plain c = true) l /\
    Forall (fun c => plain c = true) d /\
    Forall (fun c => plain c = true) t.

(** The predicate on the fields as typed, without trimming. *)
Definition canSend_untrimmed (f : Form) : Prop :=
  (2 <= length (name f))%nat /\ email_shape (email f) /\
  (10 <= length (message f))%nat /\ status f <> sending.

(** Example drafts. *)
Definition draft (n e m : string) (st : Status) : Form :=
  {| name := js n; email := js e; company := js "";
     goal := js "Crescer com performance"; message := js m; status := st |}.

Definition ana : Form := draft "Ana" "a@b.co" "1234567890" idle.

(** A message of ten spaces. *)
Definition blank_message : Form := draft "Ana" "a@b.co" "          " idle.

(** The example draft while its confirmation shows. *)
Definition ana_sent : Form := call (setStatus sent) ana.

(** The two bodies that the timers of an accepted submission resume, and
    the loop while the confirmation of the example draft shows. *)
Definition after_sending : Async := nth 0 (continuations (onSubmit ana)) Return.
Definition after_sent : Async := nth 1 (continuations (onSubmit ana)) Return.
Definition confirming : Loop :=
  {| form := call (setStatus sent) ana; timers := [after_sent] |}.

End ContactForm.

(* ------------------------------------------------------------------ *)
(** ** [cn] *)

Module ClassNames.

(** An argument of [cn]: [string | false | null | undefined]. *)
Inductive ClassValue : Type :=
| cv_string : JSString -> ClassValue
| cv_false : ClassValue
| cv_null : ClassValue
| cv_undefined : ClassValue.

(** [Boolean(v)] *)
Definition Boolean (v : ClassValue) : bool :=
  match v with
  | cv_string s => useActiveSection.truthy s
  | _ => false
  end.

(** The string that [Array.prototype.join] writes for an element. *)
Definition to_string (v : ClassValue) : JSString :=
  match v with
  | cv_string s => s
  | cv_false => js "false"
  | cv_null => js ""
  | cv_undefined => js ""
  end.

(** [classes.filter(Boolean).join(" ")] *)
Definition cn (classes : list ClassValue) : JSString :=
  useActiveSection.join (js " ") (map to_string (filter Boolean classes)).

End ClassNames.

(* ------------------------------------------------------------------ *)
(** ** [scrollToId] and [FloatingNav] *)

Module FloatingNav.

Import useActiveSection.

(** [scrollToId(id)]: the element that is scrolled into view, if any. *)
Definition scrollToId (doc : Document) (id : JSString) : option Element :=
  match getElementById doc id with
  | None => None
  | Some el => Some el
  end.

(** [s.replace(c, rep)] for a pattern that is the one-character string
    [c] and a replacement without [$]: the first occurrence only. *)
Fixpoint replace (c : N) (rep : JSString) (s : JSString) : JSString :=
  match s with
  | [] => []
  | x :: s' => if (x =? c)%N then rep ++ s' else x :: replace c rep s'
  end.

Record NavItem : Type := { label : JSString; href : JSString }.

(** [it.href.replace("#", "")] *)
Definition id_of (it : NavItem) : JSString := replace 35 (js "") (href it).

(** The argument of [useActiveSection]. *)
Definition ids (items : list NavItem) : list JSString := map id_of items.

(** [active === id] *)
Definition isActive (active : JSString) (it : NavItem) : bool :=
  str_eqb active (id_of it).

(** What the user does to the navigation: the menu button, a key, a
    button of the desktop bar, an anchor of the desktop bar (the logo,
    the call to action), a button of the open menu, the call to action
    of the open menu. *)
Inductive Event : Type :=
| toggle : Event
| keydown : JSString -> Event
| barClick : NavItem -> Event
| anchorClick : JSString -> Event
| menuClick : NavItem -> Event
| menuContact : Event.

(** [if (e.key === "Escape") setOpen(false)] *)
Definition onKey (key : JSString) (open : bool) : bool :=
  if str_eqb key (js "Escape") then false else open.

(** The state [open] after an event. *)
Definition handle (ev : Event) (open : bool) : bool :=
  match ev with
  | toggle => negb open
  | keydown key => onKey key open
  | barClick _ => open
  | anchorClick _ => open
  | menuClick _ => false
  | menuContact => false
  end.

(** The element an event scrolls to. *)
Definition scrolls (doc : Document) (ev : Event) : option Element :=
  match ev with
  | barClick it => scrollToId doc (id_of it)
  | menuClick it => scrollToId doc (id_of it)
  | anchorClick id => scrollToId doc id
  | menuContact => scrollToId doc (js "contact")
  | toggle => None
  | keydown _ => None
  end.

Definition run (evs : list Event) (open : bool) : bool :=
  fold_left (fun o ev => handle ev o) evs open.

(** The events that close the menu whatever its state. *)
Definition closes (ev : Event) : bool :=
  match ev with
  | keydown key => str_eqb key (js "Escape")
  | menuClick _ => true
  | menuContact => true
  | _ => false
  end.

Definition is_toggle (ev : Event) : bool :=
  match ev with
  | toggle => true
  | _ => false
  end.

End FloatingNav.

(* ================================================================== *)
(** * Part II: properties *)
(* ================================================================== *)

(** ** [trim] strips the white space at both ends, and nothing else *)

Section Strings.

Lemma dropWhile_split (p : N -> bool) (s : JSString) :
  exists a, s = a ++ dropWhile p s /\ Forall (fun c => p c = true) a.
Proof.
  induction s as [| c s (a & E & Ha)]; simpl.
  - exists []. split; [reflexivity | constructor].
  - destruct (p c) eqn:Hc.
    + exists (c :: a). split; [simpl; congruence | constructor; assumption].
    + exists []. split; [reflexivity | constructor].
Qed.

Lemma dropWhile_head (p : N -> bool) (s : JSString) (c : N) (r : JSString) :
  dropWhile p s = c :: r -> p c = false.
Proof.
  induction s as [| x s IH]; simpl; [discriminate |].
  destruct (p x) eqn:Hx; [assumption |].
  intros E. injection E as -> _. assumption.
Qed.

Lemma trim_split (s : JSString) :
  exists a b,
    s = a ++ trim s ++ b /\
    Forall (fun c => is_whitespace c = true) a /\
    Forall (fun c => is_whitespace c = true) b.
Proof.
  unfold trim, trimEnd, trimStart.
  destruct (dropWhile_split is_whitespace s) as (a & Ea & Ha).
  destruct (dropWhile_split is_whitespace (rev (dropWhile is_whitespace s)))
    as (b & Eb & Hb).
  exists a, (rev b). repeat split; [| assumption | apply Forall_rev; assumption].
  rewrite <- rev_app_distr, <- Eb, rev_involutive. assumption.
Qed.

Lemma trim_first (s : JSString) (c : N) (r : JSString) :
  trim s = c :: r -> is_whitespace c = false.
Proof.
  intros E.
  destruct (dropWhile_split is_whitespace (rev (trimStart s))) as (b & Eb & _).
  assert (Et : trimStart s = trim s ++ rev b).
  { unfold trim, trimEnd. rewrite <- rev_app_distr, <- Eb, rev_involutive. reflexivity. }
  rewrite E in Et. simpl in Et.
  apply (dropWhile_head is_whitespace s c (r ++ rev b)). exact Et.
Qed.

Lemma trim_last (s : JSString) (r : JSString) (c : N) :
  trim s = r ++ [c] -> is_whitespace c = false.
Proof.
  unfold trim, trimEnd. intros E.
  apply (f_equal (@rev N)) in E.
  rewrite rev_involutive, rev_app_distr in E. simpl in E.
  apply (dropWhile_head _ _ _ _ E).
Qed.

Lemma trim_length (s : JSString) : (length (trim s) <= length s)%nat.
Proof.
  destruct (trim_split s) as (a & b & E & _).
  rewrite E at 2. rewrite !length_app. lia.
Qed.

End Strings.

(** ** The matcher decides the language of a pattern *)

Section Matcher.

Lemma app_nil_inv {A : Type} (s t : list A) : s ++ t = [] -> s = [] /\ t = [].
Proof. destruct s; simpl; intros H; [auto | discriminate]. Qed.

Lemma matches_cat_inv a b w :
  matches (Cat a b) w -> exists s t, w = s ++ t /\ matches a s /\ matches b t.
Proof. intros H; inversion H; subst; eauto. Qed.

Lemma matches_alt_inv a b w : matches (Alt a b) w -> matches a w \/ matches b w.
Proof. intros H; inversion H; subst; auto. Qed.

Lemma matches_class_inv p w : matches (Class p) w -> exists c, w = [c] /\ p c = true.
Proof. intros H; inversion H; subst; eauto. Qed.

Lemma matches_eps_inv w : matches Eps w -> w = [].
Proof. intros H; inversion H; reflexivity. Qed.

Lemma matches_void_inv w : ~ matches Void w.
Proof. intros H; inversion H. Qed.

Lemma nullable_sound r : nullable r = true -> matches r [].
Proof.
  induction r; simpl; intros H; try discriminate.
  - constructor.
  - apply andb_true_iff in H as [Ha Hb].
    change (@nil N) with (@nil N ++ []). constructor; auto.
  - apply orb_true_iff in H as [Ha | Hb]; [apply m_alt_l | apply m_alt_r]; auto.
  - constructor.
Qed.

Lemma nullable_complete r w : matches r w -> w = [] -> nullable r = true.
Proof.
  induction 1; simpl; intros E; try reflexivity; try discriminate.
  - apply app_nil_inv in E as [-> ->]. rewrite IHmatches1, IHmatches2; auto.
  - rewrite IHmatches; auto.
  - rewrite IHmatches, orb_true_r; auto.
Qed.

Lemma nullable_spec r : nullable r = true <-> matches r [].
Proof. split; [apply nullable_sound | intros H; eapply nullable_complete; eauto]. Qed.

Lemma deriv_sound c r : forall w, matches (deriv c r) w -> matches r (c :: w).
Proof.
  induction r; simpl; intros w H.
  - destruct (matches_void_inv _ H).
  - destruct (matches_void_inv _ H).
  - destruct (b c) eqn:E.
    + apply matches_eps_inv in H; subst. constructor; assumption.
    + destruct (matches_void_inv _ H).
  - destruct (nullable r1) eqn:E.
    + apply matches_alt_inv in H as [H | H].
      * apply matches_cat_inv in H as (s & t & -> & Hs & Ht).
        change (c :: s ++ t) with ((c :: s) ++ t). constructor; auto.
      * change (c :: w) with ([] ++ c :: w). constructor; auto.
        apply nullable_sound; assumption.
    + apply matches_cat_inv in H as (s & t & -> & Hs & Ht).
      change (c :: s ++ t) with ((c :: s) ++ t). constructor; auto.
  - apply matches_alt_inv in H as [H | H]; [apply m_alt_l | apply m_alt_r]; auto.
  - apply matches_cat_inv in H as (s & t & -> & Hs & Ht).
    change (c :: s ++ t) with ((c :: s) ++ t). constructor; auto.
Qed.

Lemma deriv_complete r v : matches r v -> forall c w, v = c :: w -> matches (deriv c r) w.
Proof.
  induction 1; intros c' w E; simpl.
  - discriminate.
  - injection E as -> <-. rewrite H. constructor.
  - destruct s as [| x s'].
    + simpl in E. subst t.
      rewrite (nullable_complete _ _ H eq_refl). apply m_alt_r. apply IHmatches2; reflexivity.
    + simpl in E. injection E as -> <-.
      assert (Hc : matches (Cat (deriv c' a) b) (s' ++ t))
        by (constructor; [apply IHmatches1; reflexivity | assumption]).
      destruct (nullable a); [apply m_alt_l |]; assumption.
  - apply m_alt_l; auto.
  - apply m_alt_r; auto.
  - discriminate.
  - destruct s as [| x s'].
    + simpl in E. apply (IHmatches2 c' w E).
    + simpl in E. injection E as -> <-.
      constructor; [apply IHmatches1; reflexivity | assumption].
Qed.

Lemma deriv_spec c r w : matches (deriv c r) w <-> matches r (c :: w).
Proof. split; [apply deriv_sound | intros H; eapply deriv_complete; eauto]. Qed.

Lemma test_spec : forall w r, test r w = true <-> matches r w.
Proof.
  induction w as [| c w IH]; intros r; simpl.
  - apply nullable_spec.
  - rewrite IH. apply deriv_spec.
Qed.

Lemma matches_star_class (p : N -> bool) w :
  matches (Star (Class p)) w <-> Forall (fun c => p c = true) w.
Proof.
  split.
  - intros H. remember (Star (Class p)) as r eqn:E.
    induction H; try discriminate.
    + constructor.
    + injection E as ->.
      apply matches_class_inv in H as (c & -> & Hc).
      constructor; auto.
  - induction 1 as [| c w Hc _ IH].
    + constructor.
    + change (c :: w) with ([c] ++ w). constructor; [constructor |]; assumption.
Qed.

Lemma matches_plus_class (p : N -> bool) w :
  matches (Plus (Class p)) w <-> w <> [] /\ Forall (fun c => p c = true) w.
Proof.
  unfold Plus. split.
  - intros H. apply matches_cat_inv in H as (s & t & -> & Hs & Ht).
    apply matches_class_inv in Hs as (c & -> & Hc).
    apply matches_star_class in Ht.
    split; [discriminate | constructor; assumption].
  - intros [Hne Hall]. destruct w as [| c w]; [congruence |].
    inversion Hall; subst.
    change (c :: w) with ([c] ++ w).
    constructor; [constructor; assumption | apply matches_star_class; assumption].
Qed.

Lemma matches_char (k : N) w : matches (Class (N.eqb k)) w <-> w = [k].
Proof.
  split.
  - intros H. apply matches_class_inv in H as (c & -> & Hc).
    apply N.eqb_eq in Hc. subst; reflexivity.
  - intros ->. constructor. apply N.eqb_refl.
Qed.

End Matcher.

(** ** The pattern of the form is the shape local@domain.tld *)

Lemma emailPattern_shape (s : JSString) :
  test ContactForm.emailPattern s = true <-> ContactForm.email_shape s.
Proof.
  rewrite test_spec. unfold ContactForm.emailPattern, ContactForm.email_shape. split.
  - intros H.
    apply matches_cat_inv in H as (l & r1 & -> & Hl & H).
    apply matches_cat_inv in H as (a & r2 & -> & Ha & H).
    apply matches_cat_inv in H as (d & r3 & -> & Hd & H).
    apply matches_cat_inv in H as (o & t & -> & Ho & Ht).
    apply matches_char in Ha, Ho. subst a o.
    apply matches_plus_class in Hl as [? ?], Hd as [? ?], Ht as [? ?].
    exists l, d, t. repeat split; assumption.
  - intros (l & d & t & -> & Hl & Hd & Ht & Al & Ad & At).
    repeat (apply m_cat);
      try (apply matches_plus_class; split; assumption);
      apply matches_char; reflexivity.
Qed.

(** ** The contact form *)

Section ContactFormProperties.

Import ContactForm.

Lemma status_eqb_sending (s : Status) : negb (status_eqb s sending) = true <-> s <> sending.
Proof. destruct s; simpl; split; intros H; congruence. Qed.

Lemma email_shape_example : email_shape (js "a@b.co").
Proof.
  exists (js "a"), (js "b"), (js "co").
  repeat split; try discriminate; repeat constructor.
Qed.

(** C2, amended.  [canSend] holds exactly when the name without its
    surrounding white space has at least 2 characters, the email without
    its surrounding white space has the shape local@domain.tld, the
    message without its surrounding white space has at least 10
    characters, and the status is not [sending].  It is false for the
    name "A" whatever the other fields, and true for "Ana", "a@b.co",
    "1234567890" in status [idle]. *)
Theorem canSend_trimmed_iff :
  (forall f : Form,
      canSend f = true <->
      (2 <= length (trim (name f)))%nat /\
      email_shape (trim (email f)) /\
      (10 <= length (trim (message f)))%nat /\
      status f <> sending)
  /\ (forall e c g m st,
         canSend {| name := js "A"; email := e; company := c; goal := g;
                    message := m; status := st |} = false)
  /\ (forall c g,
         canSend {| name := js "Ana"; email := js "a@b.co"; company := c; goal := g;
                    message := js "1234567890"; status := idle |} = true).
Proof.
  split; [| split].
  - intros f. unfold canSend.
    rewrite !andb_true_iff, !Nat.leb_le, emailPattern_shape, status_eqb_sending.
    tauto.
  - intros. reflexivity.
  - intros. reflexivity.
Qed.

(** The amended statement at the example draft. *)
Lemma canSend_trimmed_iff_witness :
  (2 <= length (trim (name ana)))%nat /\
  email_shape (trim (email ana)) /\
  (10 <= length (trim (message ana)))%nat /\
  status ana <> sending.
Proof.
  apply (proj1 (proj1 canSend_trimmed_iff ana)). reflexivity.
Defined.

(** C2 as stated fails: a message of ten spaces has length 10, and the
    other fields are those of the accepted example, yet [canSend] is
    false. *)
Lemma canSend_untrimmed_fails :
  ~ (canSend blank_message = true <-> canSend_untrimmed blank_message).
Proof.
  intros [_ H].
  assert (E : canSend blank_message = true).
  { apply H. unfold canSend_untrimmed. simpl.
    repeat split; [lia | apply email_shape_example | lia | discriminate]. }
  vm_compute in E. discriminate.
Qed.

(** A form that may be sent is at rest or shows the confirmation of an
    earlier submission. *)
Lemma canSend_status (f : Form) : canSend f = true -> status f = idle \/ status f = sent.
Proof.
  unfold canSend. rewrite !andb_true_iff, status_eqb_sending.
  intros (_ & Hs). destruct (status f); [left | congruence | right]; reflexivity.
Qed.

(** C9.  On a form for which [canSend] is false the submit handler
    returns at once: no setter is called, no timer is started, and the
    status and the five draft fields are what they were. *)
Theorem submit_rejected (f : Form) (edits : list (list Setter))
    (Hno : canSend f = false) :
  onSubmit f = Return /\ submit edits f = [f].
Proof.
  unfold submit, onSubmit. rewrite Hno. simpl. split; reflexivity.
Qed.

Lemma submit_rejected_witness :
  onSubmit initial = Return /\ submit [] initial = [initial].
Proof.
  apply (submit_rejected initial []). reflexivity.
Defined.

End ContactFormProperties.

(** ** The active section *)

Section ActiveSectionProperties.

Import useActiveSection.

Lemma str_eqb_eq (a b : JSString) : str_eqb a b = true -> a = b.
Proof. unfold str_eqb. destruct (list_eq_dec N.eq_dec a b); [auto | discriminate]. Qed.

Lemma getElementById_some doc id el :
  getElementById doc id = Some el -> el_id el = id /\ id <> [] /\ In el doc.
Proof.
  unfold getElementById. destruct id as [| c id']; [discriminate |].
  intros H. apply find_some in H as [Hin Heq].
  apply str_eqb_eq in Heq. repeat split; [assumption | discriminate | assumption].
Qed.

(** Every element the hook observes carries one of the configured ids,
    and that id is not empty. *)
Lemma els_ids doc ids el :
  In el (els doc ids) -> In (el_id el) ids /\ truthy (el_id el) = true.
Proof.
  unfold els. rewrite in_flat_map. intros (id & Hid & Hel).
  destruct (getElementById doc id) as [el' |] eqn:E; simpl in Hel; [| contradiction].
  destruct Hel as [-> |]; [| contradiction].
  apply getElementById_some in E as (-> & Hne & _).
  split; [assumption |]. destruct id; [congruence | reflexivity].
Qed.

Lemma Qltb_lt (x y : Q) : Qltb x y = true <-> x < y.
Proof.
  unfold Qltb. rewrite negb_true_iff. split.
  - intros H. apply Qnot_le_lt. intros Hle.
    apply Qle_bool_iff in Hle. congruence.
  - intros H. destruct (Qle_bool y x) eqn:E; [| reflexivity].
    apply Qle_bool_iff in E. apply Qlt_not_le in H. contradiction.
Qed.

Lemma Qltb_ge (x y : Q) : Qltb x y = false <-> y <= x.
Proof.
  unfold Qltb. rewrite negb_false_iff. apply Qle_bool_iff.
Qed.

(** [sort] rearranges the batch into descending order of ratio. *)
Lemma insert_perm (x : Entry) (l : list Entry) :
  Permutation (x :: l) (insert compareFn x l).
Proof.
  induction l as [| y l IH]; simpl; [apply Permutation_refl |].
  destruct (Qltb 0 (compareFn x y)); [| apply Permutation_refl].
  eapply perm_trans; [apply perm_swap | apply perm_skip; exact IH].
Qed.

Lemma sort_perm (l : list Entry) : Permutation l (sort compareFn l).
Proof.
  induction l as [| x l IH]; simpl; [constructor |].
  eapply perm_trans; [apply perm_skip; exact IH | apply insert_perm].
Qed.

Lemma insert_sorted (x : Entry) (l : list Entry) :
  Sorted descending l -> Sorted descending (insert compareFn x l).
Proof.
  induction l as [| y l IH]; intros Hs; simpl.
  - repeat constructor.
  - destruct (Qltb 0 (compareFn x y)) eqn:E.
    + apply Sorted_inv in Hs as [Hs Hhd].
      constructor; [apply IH; assumption |].
      apply Qltb_lt in E. unfold compareFn in E.
      destruct l as [| z l']; simpl.
      * constructor. unfold descending. lra.
      * destruct (Qltb 0 (compareFn x z)).
        -- apply HdRel_inv in Hhd. constructor. assumption.
        -- constructor. unfold descending. lra.
    + apply Qltb_ge in E. unfold compareFn in E.
      constructor; [assumption |]. constructor. unfold descending. lra.
Qed.

Lemma sort_sorted (l : list Entry) : Sorted descending (sort compareFn l).
Proof.
  induction l as [| x l IH]; simpl; [constructor | apply insert_sorted; assumption].
Qed.

(** The head of the sorted batch is the first entry of greatest ratio:
    everything before it in the batch is strictly smaller, nothing after
    it is greater. *)
Lemma sort_head (l : list Entry) :
  l <> [] ->
  exists v l1 l2,
    l = l1 ++ v :: l2 /\
    hd_error (sort compareFn l) = Some v /\
    (forall e, In e l1 -> intersectionRatio e < intersectionRatio v) /\
    (forall e, In e l2 -> intersectionRatio e <= intersectionRatio v).
Proof.
  induction l as [| x l IH]; [congruence |]. intros _.
  destruct l as [| y l'].
  - exists x, [], []. simpl. repeat split; intros e [].
  - destruct IH as (v & l1 & l2 & El & Hhd & H1 & H2); [discriminate |].
    change (sort compareFn (x :: y :: l')) with (insert compareFn x (sort compareFn (y :: l'))).
    destruct (sort compareFn (y :: l')) as [| v' rest]; [discriminate |].
    simpl in Hhd. injection Hhd as ->.
    simpl. unfold compareFn at 1.
    destruct (Qltb 0 (intersectionRatio v - intersectionRatio x)) eqn:E.
    + apply Qltb_lt in E.
      exists v, (x :: l1), l2. rewrite El. simpl. repeat split; [| assumption].
      intros e [<- | He]; [lra | auto].
    + apply Qltb_ge in E.
      exists x, [], (y :: l').
      split; [reflexivity |]. split; [reflexivity |]. split; [intros e [] |].
      intros e He. rewrite El in He. apply in_app_or in He.
      destruct He as [He | [<- | He]].
      * apply H1 in He. lra.
      * lra.
      * apply H2 in He. lra.
Qed.

(** C1.  For a batch from the observer: if some sample is intersecting,
    the active section becomes the id of an intersecting sample whose
    ratio no intersecting sample of the batch exceeds (the head of the
    descending sort); if none is, the active section stays.  The batch
    a at 0.5, b at 0.7, both intersecting, gives "b". *)
Theorem onIntersect_highest_ratio (doc : Document) (ids : list JSString)
    (entries : list Entry) (active : JSString)
    (Hobs : observed doc ids entries) :
  ((exists e, In e entries /\ isIntersecting e = true) ->
   exists v,
     In v entries /\ isIntersecting v = true /\
     (forall e, In e entries -> isIntersecting e = true ->
                intersectionRatio e <= intersectionRatio v) /\
     onIntersect entries active = el_id (target v))
  /\ ((forall e, In e entries -> isIntersecting e = false) ->
      onIntersect entries active = active)
  /\ onIntersect batch_ab active = js "b".
Proof.
  split; [| split].
  - intros (e0 & Hin0 & Hint0).
    assert (Hne : filter isIntersecting entries <> []).
    { intros E. assert (H : In e0 (filter isIntersecting entries))
        by (apply filter_In; auto).
      rewrite E in H. destruct H. }
    destruct (sort_head _ Hne) as (v & l1 & l2 & El & Hhd & H1 & H2).
    assert (Hv : In v (filter isIntersecting entries))
      by (rewrite El; apply in_or_app; right; left; reflexivity).
    apply filter_In in Hv as [Hvin Hvint].
    exists v. repeat split; try assumption.
    + intros e He Hi.
      assert (Hf : In e (filter isIntersecting entries)) by (apply filter_In; auto).
      rewrite El in Hf. apply in_app_or in Hf.
      destruct Hf as [Hf | [<- | Hf]].
      * apply H1 in Hf. lra.
      * lra.
      * apply H2 in Hf. assumption.
    + unfold onIntersect. rewrite Hhd.
      unfold observed in Hobs. rewrite Forall_forall in Hobs.
      destruct (els_ids _ _ _ (Hobs v Hvin)) as [_ ->]. reflexivity.
  - intros Hnone. unfold onIntersect.
    assert (E : filter isIntersecting entries = []).
    { destruct (filter isIntersecting entries) as [| e l] eqn:E; [reflexivity |].
      assert (H : In e (filter isIntersecting entries)) by (rewrite E; left; reflexivity).
      apply filter_In in H as [Hin Hi]. rewrite (Hnone e Hin) in Hi. discriminate. }
    rewrite E. reflexivity.
  - reflexivity.
Qed.

Lemma onIntersect_highest_ratio_witness :
  onIntersect batch_ab (js "home") = js "b".
Proof.
  refine (proj2 (proj2 (onIntersect_highest_ratio page_ab ids_ab batch_ab (js "home") _))).
  unfold observed, batch_ab.
  constructor; [vm_compute; left; reflexivity |].
  constructor; [vm_compute; right; left; reflexivity |].
  constructor.
Defined.

(** The stable order decides ties: of several intersecting samples of the
    greatest ratio, the first in the batch wins. *)
Lemma onIntersect_first_of_ties (doc : Document) (ids : list JSString)
    (entries : list Entry) (active : JSString) :
  observed doc ids entries ->
  filter isIntersecting entries <> [] ->
  exists v l1 l2,
    filter isIntersecting entries = l1 ++ v :: l2 /\
    (forall e, In e l1 -> intersectionRatio e < intersectionRatio v) /\
    (forall e, In e l2 -> intersectionRatio e <= intersectionRatio v) /\
    onIntersect entries active = el_id (target v).
Proof.
  intros Hobs Hne.
  destruct (sort_head _ Hne) as (v & l1 & l2 & El & Hhd & H1 & H2).
  exists v, l1, l2. repeat split; try assumption.
  assert (Hv : In v (filter isIntersecting entries))
    by (rewrite El; apply in_or_app; right; left; reflexivity).
  apply filter_In in Hv as [Hvin _].
  unfold onIntersect. rewrite Hhd.
  unfold observed in Hobs. rewrite Forall_forall in Hobs.
  destruct (els_ids _ _ _ (Hobs v Hvin)) as [_ ->]. reflexivity.
Qed.

(** A batch either leaves the state or sets it to a configured,
    non-empty id. *)
Lemma onIntersect_assigns (doc : Document) (ids : list JSString)
    (entries : list Entry) (active : JSString) :
  observed doc ids entries ->
  onIntersect entries active = active \/
  (In (onIntersect entries active) ids /\ onIntersect entries active <> js "").
Proof.
  intros Hobs. unfold onIntersect.
  destruct (filter isIntersecting entries) as [| e0 l0] eqn:E; [left; reflexivity |].
  assert (Hne : filter isIntersecting entries <> []) by (rewrite E; discriminate).
  destruct (sort_head _ Hne) as (v & l1 & l2 & El & Hhd & _ & _).
  rewrite <- E, Hhd.
  assert (Hv : In v (filter isIntersecting entries))
    by (rewrite El; apply in_or_app; right; left; reflexivity).
  apply filter_In in Hv as [Hvin _].
  unfold observed in Hobs. rewrite Forall_forall in Hobs.
  destruct (els_ids _ _ _ (Hobs v Hvin)) as [Hin Ht]. rewrite Ht.
  right. split; [assumption |].
  destruct (el_id (target v)); [discriminate | discriminate].
Qed.

(** While every render passes the list the hook was mounted with, the
    effect never runs again and the state is one of the ids. *)
Lemma same_list_state (doc : Document) (ids : list JSString) (h : Hook) :
  ids <> [] ->
  reaches doc (same_list ids) ids h ->
  h_ids h = ids /\ h_key h = deps ids /\ h_observed h = els doc ids
  /\ In (h_active h) ids /\ (initial ids <> js "" -> h_active h <> js "").
Proof.
  intros Hne Hr.
  induction Hr as [| h ids' Hr (Hi & Hk & Ho & Hin & Hn) Hsame
                     | h entries Hr (Hi & Hk & Ho & Hin & Hn) Hw].
  - unfold mount; simpl. repeat split; [| auto].
    destruct ids; [congruence | left; reflexivity].
  - unfold same_list in Hsame. subst ids'. unfold rerender.
    rewrite Hk. unfold str_eqb.
    destruct (list_eq_dec N.eq_dec (deps ids) (deps ids)); [| congruence].
    simpl. repeat split; assumption.
  - unfold deliver; simpl. repeat split; try assumption.
    + assert (Hobs : observed doc ids entries) by (unfold watched in Hw; rewrite Ho in Hw; exact Hw).
      destruct (onIntersect_assigns doc ids entries (h_active h) Hobs) as [-> | [H _]];
        assumption.
    + assert (Hobs : observed doc ids entries) by (unfold watched in Hw; rewrite Ho in Hw; exact Hw).
      destruct (onIntersect_assigns doc ids entries (h_active h) Hobs) as [-> | [_ H]];
        [assumption | intros _; assumption].
Qed.

(** C8, amended.  For a non-empty configured list: the active section
    is initialised to the first configured id; a render never changes
    it, also when it passes another list; and while every render passes
    the same list, the active section is always one of the configured
    ids, it is never the empty string provided the first configured id
    is not the empty string, and a batch from the observer either
    leaves it or assigns a non-empty id of the list. *)
Theorem active_section_configured (doc : Document) (ids : list JSString)
    (Hne : ids <> []) :
  hd_error ids = Some (initial ids)
  /\ h_active (mount doc ids) = initial ids
  /\ (forall h ids', h_active (rerender doc ids' h) = h_active h)
  /\ (forall h,
         reaches doc (same_list ids) ids h ->
         h_ids h = ids
         /\ In (h_active h) ids
         /\ (initial ids <> js "" -> h_active h <> js "")
         /\ (forall entries,
                watched h entries ->
                h_active (deliver entries h) = h_active h
                \/ (In (h_active (deliver entries h)) ids
                    /\ h_active (deliver entries h) <> js ""))).
Proof.
  split; [| split; [| split]].
  - destruct ids; [congruence | reflexivity].
  - reflexivity.
  - intros h ids'. unfold rerender.
    destruct (str_eqb (deps ids') (h_key h)); reflexivity.
  - intros h Hr.
    destruct (same_list_state doc ids h Hne Hr) as (Hi & _ & Ho & Hin & Hn).
    repeat split; try assumption.
    intros entries Hw. unfold deliver; simpl.
    apply (onIntersect_assigns doc ids).
    unfold watched in Hw. rewrite Ho in Hw. exact Hw.
Qed.

Lemma active_section_configured_witness :
  h_ids (deliver batch_ab (rerender page_ab ids_ab (mount page_ab ids_ab))) = ids_ab
  /\ In (h_active (deliver batch_ab (rerender page_ab ids_ab (mount page_ab ids_ab)))) ids_ab.
Proof.
  assert (Hr : reaches page_ab (same_list ids_ab) ids_ab
                 (deliver batch_ab (rerender page_ab ids_ab (mount page_ab ids_ab)))).
  { apply reaches_batch.
    - apply reaches_rerender; [apply reaches_mount | reflexivity].
    - unfold watched, batch_ab.
      constructor; [vm_compute; left; reflexivity |].
      constructor; [vm_compute; right; left; reflexivity |].
      constructor. }
  destruct (proj2 (proj2 (proj2 (active_section_configured page_ab ids_ab
                                   ltac:(discriminate)))) _ Hr) as (Hi & Hin & _).
  split; assumption.
Defined.

(** C8 as stated fails, in two ways.  The list [ids_hash] is not empty
    and the page has the section it names, yet the active section is the
    empty string from the first render on.  And a hook mounted with the
    list a, b and rendered again with the list c, d has the active
    section a, which is not one of the ids then configured. *)
Lemma active_section_not_always :
  (ids_hash <> []
   /\ reaches page_ab (same_list ids_hash) ids_hash (mount page_ab ids_hash)
   /\ h_active (mount page_ab ids_hash) = js "")
  /\ (reaches page_ab any_list ids_ab (rerender page_ab [js "c"; js "d"] (mount page_ab ids_ab))
      /\ h_ids (rerender page_ab [js "c"; js "d"] (mount page_ab ids_ab)) = [js "c"; js "d"]
      /\ ~ In (h_active (rerender page_ab [js "c"; js "d"] (mount page_ab ids_ab)))
              [js "c"; js "d"]).
Proof.
  split.
  - split; [discriminate |]. split; [apply reaches_mount | reflexivity].
  - split; [apply reaches_rerender; [apply reaches_mount | exact I] |].
    split; [reflexivity |].
    vm_compute. intros [H | [H | []]]; discriminate H.
Qed.

End ActiveSectionProperties.

(** ** The tilting card *)

Section TiltCardProperties.

Import TiltCard.

(** A pointer at the fraction [p] of a side of positive length has the
    normalised coordinate [p]. *)
Lemma normalised (c o w p : Q) : 0 < w -> c == o + p * w -> (c - o) / w == p.
Proof.
  intros Hw Hc. rewrite Hc. field. intros E. rewrite E in Hw. apply (Qlt_irrefl 0 Hw).
Qed.

Lemma normalised_bounds (c o w : Q) :
  0 < w -> o <= c -> c <= o + w -> 0 <= (c - o) / w /\ (c - o) / w <= 1.
Proof.
  intros Hw Hlo Hhi. split.
  - apply Qle_shift_div_l; [assumption | lra].
  - apply Qle_shift_div_r; [assumption | lra].
Qed.

(** C4.  For a pointer at the normalised coordinates [(px, py)] of the
    card's bounding box, the move handler sets rotateY = (px - 0.5) * 10,
    rotateX = -(py - 0.5) * 10 and the glow position (px * 100, py * 100);
    at the centre (0.5, 0.5) both angles are 0 and the glow is at
    (50, 50). *)
Theorem onMove_tilt (e : PointerEvent) (r : DOMRect) (t : Tilt) (px py : Q)
    (Hw : 0 < r_width r) (Hh : 0 < r_height r)
    (Hx : clientX e == r_left r + px * r_width r)
    (Hy : clientY e == r_top r + py * r_height r) :
  (ry (onMove e r t) == (px - 0.5) * 10 /\
   rx (onMove e r t) == - (py - 0.5) * 10 /\
   glowX (onMove e r t) == px * 100 /\
   glowY (onMove e r t) == py * 100)
  /\ (px == 0.5 -> py == 0.5 ->
      rx (onMove e r t) == 0 /\ ry (onMove e r t) == 0 /\
      glowX (onMove e r t) == 50 /\ glowY (onMove e r t) == 50).
Proof.
  assert (Ex : normX e r == px) by (apply normalised; assumption).
  assert (Ey : normY e r == py) by (apply normalised; assumption).
  unfold onMove, setTilt; simpl.
  split.
  - rewrite Ex, Ey. repeat split; reflexivity.
  - intros Hpx Hpy. rewrite Ex, Ey, Hpx, Hpy. repeat split; reflexivity.
Qed.

Lemma onMove_tilt_witness :
  rx (onMove {| clientX := 60; clientY := 45 |}
             {| r_left := 10; r_top := 20; r_width := 100; r_height := 50 |} initial) == 0
  /\ ry (onMove {| clientX := 60; clientY := 45 |}
                {| r_left := 10; r_top := 20; r_width := 100; r_height := 50 |} initial) == 0
  /\ glowX (onMove {| clientX := 60; clientY := 45 |}
                   {| r_left := 10; r_top := 20; r_width := 100; r_height := 50 |} initial) == 50
  /\ glowY (onMove {| clientX := 60; clientY := 45 |}
                   {| r_left := 10; r_top := 20; r_width := 100; r_height := 50 |} initial) == 50.
Proof.
  refine (proj2 (onMove_tilt {| clientX := 60; clientY := 45 |}
                   {| r_left := 10; r_top := 20; r_width := 100; r_height := 50 |}
                   initial 0.5 0.5 _ _ _ _) _ _);
    simpl; try reflexivity.
Defined.

(** Inside the card both normalised coordinates lie in [0, 1]. *)
Lemma inside_normalised (e : PointerEvent) (r : DOMRect) :
  inside e r ->
  (0 <= normX e r /\ normX e r <= 1) /\ (0 <= normY e r /\ normY e r <= 1).
Proof.
  intros (Hw & Hh & Hx1 & Hx2 & Hy1 & Hy2). unfold normX, normY.
  split; apply normalised_bounds; assumption.
Qed.

Lemma onMove_bounded (e : PointerEvent) (r : DOMRect) (t : Tilt) :
  inside e r -> bounded (onMove e r t).
Proof.
  intros Hin.
  destruct (inside_normalised e r Hin) as [[Hpx0 Hpx1] [Hpy0 Hpy1]].
  unfold bounded, onMove, setTilt; simpl.
  repeat split; lra.
Qed.

(** C5.  Every tilt state that the card reaches (the initial one, one
    after a pointer move inside the card's bounding box, one after the
    pointer leaves) has rotateX and rotateY in [-5, 5] and glowX and
    glowY in [0, 100]. *)
Theorem tilt_bounded (t : Tilt) (Hr : reachable t) : bounded t.
Proof.
  induction Hr as [| t e r _ _ Hin | t _ _].
  - unfold bounded, initial; simpl. repeat split; lra.
  - apply onMove_bounded; assumption.
  - unfold bounded, onLeave, setTilt; simpl. repeat split; lra.
Qed.

Lemma tilt_bounded_witness :
  bounded (onMove {| clientX := 110; clientY := 20 |}
                  {| r_left := 10; r_top := 20; r_width := 100; r_height := 50 |} initial).
Proof.
  apply tilt_bounded. apply reach_move; [apply reach_initial |].
  unfold inside, Qle, Qlt; simpl. repeat split; lia.
Defined.

(** C7.  Whatever the tilt state was, the pointer-leave handler sets it
    to rotateX = 0, rotateY = 0, glowX = 50, glowY = 50; so does every
    history of pointer events that ends with the pointer leaving. *)
Theorem onLeave_neutral (t : Tilt) :
  onLeave t = {| rx := 0; ry := 0; glowX := 50; glowY := 50 |}
  /\ (forall evs : list Event,
         run (evs ++ [pointerleave]) t
         = {| rx := 0; ry := 0; glowX := 50; glowY := 50 |}).
Proof.
  split; [reflexivity |].
  intros evs. unfold run. rewrite fold_left_app. reflexivity.
Qed.

End TiltCardProperties.

(** ** The page glow *)

Section MouseGlowProperties.

Import MouseGlow.

Lemma clamp_spec (l : Q) :
  Qmax 0 (Qmin 100 l) == Qmin (Qmax l 0) 100
  /\ 0 <= Qmax 0 (Qmin 100 l) /\ Qmax 0 (Qmin 100 l) <= 100.
Proof.
  destruct (Q.min_spec 100 l) as [[H1 E1] | [H1 E1]];
  destruct (Q.max_spec 0 (Qmin 100 l)) as [[H2 E2] | [H2 E2]];
  destruct (Q.max_spec l 0) as [[H3 E3] | [H3 E3]];
  destruct (Q.min_spec (Qmax l 0) 100) as [[H4 E4] | [H4 E4]];
  rewrite ?E2, ?E4; rewrite ?E1, ?E3 in *; repeat split; lra.
Qed.

(** C10.  Whatever the two spring values are, the gradient that is
    rendered is centred at (min(max(lx, 0), 100), min(max(ly, 0), 100)),
    and both percentages lie in [0, 100]. *)
Theorem glow_center_clamped (lx ly : Q) :
  render false lx ly = Some (bg lx ly)
  /\ atX (bg lx ly) == Qmin (Qmax lx 0) 100
  /\ atY (bg lx ly) == Qmin (Qmax ly 0) 100
  /\ (0 <= atX (bg lx ly) /\ atX (bg lx ly) <= 100)
  /\ (0 <= atY (bg lx ly) /\ atY (bg lx ly) <= 100).
Proof.
  unfold bg; simpl.
  destruct (clamp_spec lx) as (Ex & Hx0 & Hx1).
  destruct (clamp_spec ly) as (Ey & Hy0 & Hy1).
  repeat split; assumption.
Qed.

End MouseGlowProperties.

(** ** The typewriter title *)

Section TypewriterProperties.

Import GradientTypeTitle.

Variable full : JSString.

Lemma tick_idle (st : State) : timer st = None -> tick full st = st.
Proof. unfold tick. intros ->. reflexivity. Qed.

Lemma ticks_idle (k : nat) (st : State) : timer st = None -> ticks full k st = st.
Proof.
  intros H. induction k as [| k IH]; simpl; [reflexivity |].
  rewrite IH. apply tick_idle; assumption.
Qed.

(** While fewer ticks have fired than the string has characters, the
    interval is live, its counter is the number of ticks, and the text
    is the prefix of that length. *)
Lemma ticks_running (r : bool) (p : option bool) (k : nat) :
  (k < length full)%nat ->
  ticks full k {| reduced := r; pending := p; text := js ""; done := false;
                  timer := Some 0%nat |}
  = {| reduced := r; pending := p; text := firstn k full; done := false;
       timer := Some k |}.
Proof.
  induction k as [| k IH]; intros Hk; simpl; [reflexivity |].
  rewrite IH by lia. unfold tick; simpl.
  destruct (length full <=? S k)%nat eqn:E; [apply Nat.leb_le in E; lia | reflexivity].
Qed.

(** The tick that reaches the length of the string shows all of it,
    clears the interval and sets [done]. *)
Lemma ticks_finished (r : bool) (p : option bool) (k : nat) :
  (1 <= length full)%nat -> (length full <= k)%nat ->
  ticks full k {| reduced := r; pending := p; text := js ""; done := false;
                  timer := Some 0%nat |}
  = {| reduced := r; pending := p; text := full; done := true; timer := None |}.
Proof.
  intros Hlen Hk.
  assert (Hat : ticks full (length full)
                  {| reduced := r; pending := p; text := js ""; done := false;
                     timer := Some 0%nat |}
                = {| reduced := r; pending := p; text := full; done := true;
                     timer := None |}).
  { destruct (length full) as [| n] eqn:E; [lia |].
    cbn [ticks]. rewrite ticks_running by lia. unfold tick; cbn [timer].
    rewrite E, Nat.leb_refl. unfold slice0.
    rewrite <- E, firstn_all. reflexivity. }
  replace k with ((k - length full) + length full)%nat by lia.
  generalize (k - length full)%nat as d. intros d.
  induction d as [| d IH]; simpl; [assumption |].
  rewrite IH. reflexivity.
Qed.

Lemma mount_state (m : bool) : mount full m
  = {| reduced := false; pending := Some m; text := js ""; done := false;
       timer := Some 0%nat |}.
Proof. reflexivity. Qed.

Lemma start_motion : start full false
  = {| reduced := false; pending := None; text := js ""; done := false;
       timer := Some 0%nat |}.
Proof. reflexivity. Qed.

(** With the preference off: after [k] ticks, [1 <= k <= length full],
    the text is the prefix of length [k]; after [length full] ticks the
    text is the whole string, the interval is cleared and [done] is
    set. *)
Lemma typewriter_motion (k : nat) :
  (1 <= k)%nat -> (k <= length full)%nat ->
  text (ticks full k (start full false)) = firstn k full
  /\ text (ticks full (length full) (start full false)) = full
  /\ done (ticks full (length full) (start full false)) = true
  /\ timer (ticks full (length full) (start full false)) = None.
Proof.
  intros H1 Hk. rewrite start_motion.
  rewrite (ticks_finished false None (length full)) by lia. simpl.
  repeat split.
  destruct (Nat.eq_dec k (length full)) as [-> | Hne].
  - rewrite ticks_finished by lia. simpl. symmetry. apply firstn_all.
  - rewrite ticks_running by lia. reflexivity.
Qed.

(** C6, at the preference for reduced motion.  The first render sees the
    [false] of [useState(false)], so the text starts empty, [done] starts
    false and the interval is started; the render that takes up
    [setReduced(true)] clears the interval and keeps the text and [done]
    as they are.  After [j] ticks before that render, [j] below the
    length of the string, the title is the prefix of length [j] (empty
    for [j = 0]) and stays so: [done] is never set. *)
Theorem typewriter_reduced_motion_stalls (j k : nat) (Hj : (j < length full)%nat) :
  text (ticks full k (render (ticks full j (mount full true)))) = firstn j full
  /\ done (ticks full k (render (ticks full j (mount full true)))) = false
  /\ timer (ticks full k (render (ticks full j (mount full true)))) = None
  /\ reduced (ticks full k (render (ticks full j (mount full true)))) = true.
Proof.
  rewrite mount_state, ticks_running by assumption.
  unfold render; simpl.
  rewrite ticks_idle by reflexivity. simpl.
  repeat split.
Qed.

End TypewriterProperties.

Lemma typewriter_reduced_motion_stalls_witness :
  GradientTypeTitle.text (GradientTypeTitle.ticks (js "abc") 3 (GradientTypeTitle.start (js "abc") true)) = js ""
  /\ GradientTypeTitle.done (GradientTypeTitle.ticks (js "abc") 3 (GradientTypeTitle.start (js "abc") true)) = false.
Proof.
  destruct (typewriter_reduced_motion_stalls (js "abc") 0 3) as (Ht & Hd & _).
  - simpl. lia.
  - split; [exact Ht | exact Hd].
Defined.

(** The example of the target "abc" with the preference off. *)
Lemma typewriter_abc :
  GradientTypeTitle.text (GradientTypeTitle.ticks (js "abc") 1 (GradientTypeTitle.start (js "abc") false)) = js "a"
  /\ GradientTypeTitle.text (GradientTypeTitle.ticks (js "abc") 3 (GradientTypeTitle.start (js "abc") false)) = js "abc"
  /\ GradientTypeTitle.done (GradientTypeTitle.ticks (js "abc") 3 (GradientTypeTitle.start (js "abc") false)) = true
  /\ GradientTypeTitle.timer (GradientTypeTitle.ticks (js "abc") 3 (GradientTypeTitle.start (js "abc") false)) = None.
Proof. repeat split. Qed.

(** The headline of the page under the preference for reduced motion:
    never shown. *)
Lemma headline_reduced_motion (k : nat) :
  GradientTypeTitle.text (GradientTypeTitle.ticks GradientTypeTitle.headline k
                     (GradientTypeTitle.start GradientTypeTitle.headline true)) = js ""
  /\ GradientTypeTitle.done (GradientTypeTitle.ticks GradientTypeTitle.headline k
                        (GradientTypeTitle.start GradientTypeTitle.headline true)) = false.
Proof.
  rewrite ticks_idle by reflexivity. split; reflexivity.
Qed.

(* ================================================================== *)
(** * Part III: further properties of the code *)
(* ================================================================== *)

(** ** Joining strings, and [cn] *)

Section ClassNamesProperties.

Import useActiveSection ClassNames.

Lemma join_cons (sep x : JSString) (l : list JSString) :
  l <> [] -> join sep (x :: l) = x ++ sep ++ join sep l.
Proof. destruct l; [congruence | reflexivity]. Qed.

Lemma join_app (sep : JSString) (l1 l2 : list JSString) :
  l1 <> [] -> l2 <> [] ->
  join sep (l1 ++ l2) = join sep l1 ++ sep ++ join sep l2.
Proof.
  induction l1 as [| x l1 IH]; intros H1 H2; [congruence |].
  destruct l1 as [| y l1].
  - simpl app. rewrite join_cons by assumption. reflexivity.
  - change ((x :: y :: l1) ++ l2) with (x :: ((y :: l1) ++ l2)).
    rewrite join_cons by discriminate.
    rewrite IH by (discriminate || assumption).
    rewrite (join_cons sep x (y :: l1)) by discriminate.
    rewrite <- !app_assoc. reflexivity.
Qed.

(** The strings that [cn] keeps are not empty. *)
Lemma kept_truthy (classes : list ClassValue) :
  Forall (fun s => truthy s = true) (map to_string (filter Boolean classes)).
Proof.
  induction classes as [| v l IH]; simpl; [constructor |].
  destruct v as [s | | |]; simpl; try assumption.
  destruct (truthy s) eqn:E; simpl; [constructor; assumption | assumption].
Qed.

Lemma join_truthy (sep : JSString) (l : list JSString) :
  Forall (fun s => truthy s = true) l -> l <> [] -> truthy (join sep l) = true.
Proof.
  intros Hall Hne. destruct l as [| x l]; [congruence |].
  inversion Hall as [| ? ? Hx _]; subst.
  destruct x as [| c x]; [discriminate |].
  destruct l; reflexivity.
Qed.

(** X1.  A class string made by [cn] and passed on as an argument of
    another [cn] gives what one [cn] gives on all the arguments in a
    row: no separator is doubled and an empty result leaves no trace. *)
Theorem cn_nested (a b : list ClassValue) :
  cn (cv_string (cn a) :: b) = cn (a ++ b).
Proof.
  unfold cn at 1 3. rewrite filter_app, map_app. simpl filter.
  pose proof (kept_truthy a) as Ha.
  destruct (map to_string (filter Boolean a)) as [| x ka] eqn:Ea.
  - unfold cn. rewrite Ea. reflexivity.
  - assert (Ht : truthy (cn a) = true).
    { unfold cn. rewrite Ea. apply join_truthy; [assumption | discriminate]. }
    simpl Boolean. rewrite Ht. simpl map.
    unfold cn. rewrite Ea.
    destruct (map to_string (filter Boolean b)) as [| y kb].
    + rewrite app_nil_r. reflexivity.
    + rewrite join_cons by discriminate.
      rewrite join_app by discriminate. reflexivity.
Qed.

(** X2.  [cn] gives the empty string exactly when every argument is
    falsy: [false], [null], [undefined] or the empty string. *)
Theorem cn_empty_iff (classes : list ClassValue) :
  cn classes = js "" <-> Forall (fun v => Boolean v = false) classes.
Proof.
  unfold cn. split.
  - intros E. pose proof (kept_truthy classes) as Hk.
    destruct (filter Boolean classes) as [| v l] eqn:Ef.
    + clear E Hk. induction classes as [| w cs IH]; [constructor |].
      simpl in Ef. destruct (Boolean w) eqn:Ew; [discriminate |].
      constructor; [assumption | apply IH; assumption].
    + assert (Ht := join_truthy (js " ") _ Hk ltac:(discriminate)).
      rewrite E in Ht. discriminate.
  - intros Hall.
    assert (Ef : filter Boolean classes = []).
    { induction Hall as [| v l Hv _ IH]; simpl; [reflexivity |].
      rewrite Hv. assumption. }
    rewrite Ef. reflexivity.
Qed.

End ClassNamesProperties.

(** ** The navigation *)

Section FloatingNavProperties.

Import useActiveSection FloatingNav.

(** X3.  [replace] with an empty replacement removes the first
    occurrence of the character and nothing else; a string without the
    character is returned as it is.  So the id of a nav item is its
    [href] without its first [#]. *)
Theorem replace_first (c : N) (s : JSString) :
  (In c s ->
   exists a b, s = a ++ c :: b /\ ~ In c a /\ replace c (js "") s = a ++ b)
  /\ (~ In c s -> replace c (js "") s = s).
Proof.
  induction s as [| x s [IH1 IH2]]; split.
  - intros [].
  - reflexivity.
  - intros Hin. simpl. destruct (x =? c)%N eqn:E.
    + apply N.eqb_eq in E. subst x.
      exists [], s. repeat split; auto.
    + apply N.eqb_neq in E.
      destruct Hin as [-> | Hin]; [congruence |].
      destruct (IH1 Hin) as (a & b & -> & Hna & Er).
      exists (x :: a), b. repeat split.
      * intros [-> | H]; [congruence | auto].
      * rewrite Er. reflexivity.
  - intros Hn. simpl. destruct (x =? c)%N eqn:E.
    + apply N.eqb_eq in E. subst x. exfalso. apply Hn. left; reflexivity.
    + rewrite IH2; [reflexivity |]. intros H. apply Hn. right; assumption.
Qed.

Lemma replace_first_witness :
  exists a b, js "#a#b" = a ++ 35%N :: b /\ ~ In 35%N a
              /\ replace 35 (js "") (js "#a#b") = a ++ b.
Proof.
  apply (proj1 (replace_first 35 (js "#a#b"))). left; reflexivity.
Defined.

Lemma run_app (evs1 evs2 : list Event) (open : bool) :
  run (evs1 ++ evs2) open = run evs2 (run evs1 open).
Proof. unfold run. apply fold_left_app. Qed.

Lemma run_toggles (evs : list Event) :
  forallb (fun ev => negb (closes ev)) evs = true ->
  forall open, run evs open = xorb open (Nat.odd (length (filter is_toggle evs))).
Proof.
  induction evs as [| ev evs IH]; simpl; intros H open.
  - destruct open; reflexivity.
  - apply andb_true_iff in H as [Hev Hevs].
    change (run (ev :: evs) open) with (run evs (handle ev open)).
    rewrite (IH Hevs).
    destruct ev as [| key | it | id | it |]; simpl in *; try discriminate; try reflexivity.
    + rewrite Nat.odd_succ, <- Nat.negb_odd.
      destruct open, (Nat.odd (length (filter is_toggle evs))); reflexivity.
    + unfold onKey. apply negb_true_iff in Hev. rewrite Hev. reflexivity.
Qed.

(** X4.  After the Escape key, a button of the open menu or its call to
    action, the menu is closed whatever came before; from then on, as
    long as none of these happens again, the menu is open exactly when
    the menu button was pressed an odd number of times.  Other keys and
    the buttons of the desktop bar never change it. *)
Theorem menu_open_parity (before later : list Event) (c : Event) (open : bool)
    (Hc : closes c = true)
    (Hlater : forallb (fun ev => negb (closes ev)) later = true) :
  run (before ++ [c]) open = false
  /\ run (before ++ c :: later) open = Nat.odd (length (filter is_toggle later)).
Proof.
  assert (Hclosed : forall o, handle c o = false).
  { intros o. destruct c as [| key | it | id | it |]; simpl in *; try discriminate;
      try reflexivity.
    unfold onKey. rewrite Hc. reflexivity. }
  split.
  - rewrite run_app. simpl. apply Hclosed.
  - rewrite run_app.
    change (run (c :: later) (run before open))
      with (run later (handle c (run before open))).
    rewrite Hclosed, (run_toggles later Hlater). reflexivity.
Qed.

Lemma menu_open_parity_witness :
  run ([toggle] ++ keydown (js "Escape") :: [toggle; keydown (js "Enter"); toggle; toggle]) false
  = true.
Proof.
  apply (proj2 (menu_open_parity [toggle] [toggle; keydown (js "Enter"); toggle; toggle]
                  (keydown (js "Escape")) false eq_refl eq_refl)).
Defined.

End FloatingNavProperties.

(** ** More on the active section *)

Section useActiveSectionMore.

Import useActiveSection FloatingNav.

Lemma str_eqb_refl (a : JSString) : str_eqb a a = true.
Proof. unfold str_eqb. destruct (list_eq_dec N.eq_dec a a); [reflexivity | congruence]. Qed.

Lemma str_eqb_iff (a b : JSString) : str_eqb a b = true <-> a = b.
Proof. split; [apply str_eqb_eq | intros ->; apply str_eqb_refl]. Qed.

Lemma filter_unique (items : list NavItem) (a : JSString) :
  NoDup (ids items) -> In a (ids items) ->
  exists it, filter (isActive a) items = [it] /\ id_of it = a.
Proof.
  unfold ids. induction items as [| x items IH]; simpl; intros Hnd Hin; [contradiction |].
  inversion Hnd as [| ? ? Hnotin Hnd']; subst.
  assert (Hnone : ~ In a (map id_of items) -> filter (isActive a) items = []).
  { clear. induction items as [| y l IH]; simpl; intros H; [reflexivity |].
    unfold isActive at 1. destruct (str_eqb a (id_of y)) eqn:E.
    - apply str_eqb_eq in E. exfalso. apply H. left. congruence.
    - apply IH. intros H'. apply H. right; assumption. }
  unfold isActive at 1. destruct (str_eqb a (id_of x)) eqn:E.
  - apply str_eqb_eq in E. subst a.
    exists x. rewrite (Hnone Hnotin). split; reflexivity.
  - destruct Hin as [Heq | Hin].
    + rewrite Heq, str_eqb_refl in E. discriminate.
    + apply IH; assumption.
Qed.

(** X5.  When the nav items have distinct ids and every render passes
    the same items, as [App] does, exactly one item is highlighted in
    every state of the hook, from the first render on. *)
Theorem one_item_highlighted (doc : Document) (items : list NavItem) (h : Hook)
    (Hne : items <> []) (Hnd : NoDup (ids items))
    (Hr : reaches doc (same_list (ids items)) (ids items) h) :
  exists it,
    filter (isActive (h_active h)) items = [it] /\ In it items /\ id_of it = h_active h.
Proof.
  assert (Hin : In (h_active h) (ids items)).
  { apply (same_list_state doc (ids items) h); [| assumption].
    destruct items; [congruence | discriminate]. }
  destruct (filter_unique items (h_active h) Hnd Hin) as (it & Ef & Eid).
  exists it. repeat split; try assumption.
  assert (H : In it (filter (isActive (h_active h)) items)) by (rewrite Ef; left; reflexivity).
  apply filter_In in H. tauto.
Qed.

Lemma one_item_highlighted_witness :
  exists it,
    filter (isActive (h_active (mount page_ab (ids
              [{| label := js "A"; href := js "#a" |}; {| label := js "B"; href := js "#b" |}]))))
           [{| label := js "A"; href := js "#a" |}; {| label := js "B"; href := js "#b" |}]
    = [it]
    /\ In it [{| label := js "A"; href := js "#a" |}; {| label := js "B"; href := js "#b" |}]
    /\ id_of it
       = h_active (mount page_ab (ids
              [{| label := js "A"; href := js "#a" |}; {| label := js "B"; href := js "#b" |}])).
Proof.
  apply (one_item_highlighted page_ab
           [{| label := js "A"; href := js "#a" |}; {| label := js "B"; href := js "#b" |}]).
  - discriminate.
  - vm_compute. repeat constructor; simpl; intuition discriminate.
  - apply reaches_mount.
Defined.

(** X6.  The element a nav button scrolls to is one the hook observes,
    and a batch in which it is the only intersecting sample highlights
    that button. *)
Theorem scroll_target_highlights (doc : Document) (items : list NavItem)
    (it : NavItem) (el : Element) (entries : list Entry) (e : Entry) (active : JSString)
    (Hit : In it items)
    (Hscroll : scrollToId doc (id_of it) = Some el)
    (Hbatch : filter isIntersecting entries = [e])
    (Htarget : target e = el) :
  In el (els doc (ids items))
  /\ onIntersect entries active = id_of it
  /\ isActive (onIntersect entries active) it = true.
Proof.
  unfold scrollToId in Hscroll.
  destruct (getElementById doc (id_of it)) as [el' |] eqn:Eg; [| discriminate].
  injection Hscroll as ->.
  destruct (getElementById_some _ _ _ Eg) as (Eid & Hne & _).
  assert (Hon : onIntersect entries active = id_of it).
  { unfold onIntersect. rewrite Hbatch. simpl. rewrite Htarget, Eid.
    destruct (id_of it); [congruence | reflexivity]. }
  repeat split.
  - unfold els. apply in_flat_map. exists (id_of it). split.
    + unfold ids. apply in_map. assumption.
    + rewrite Eg. left; reflexivity.
  - assumption.
  - unfold isActive. rewrite Hon. apply str_eqb_refl.
Qed.

Lemma scroll_target_highlights_witness :
  In {| el_id := js "b" |} (els page_ab (ids [{| label := js "B"; href := js "#b" |}]))
  /\ onIntersect [sample "a" 0.9 false; sample "b" 0.2 true] (js "a")
     = id_of {| label := js "B"; href := js "#b" |}
  /\ isActive (onIntersect [sample "a" 0.9 false; sample "b" 0.2 true] (js "a"))
              {| label := js "B"; href := js "#b" |} = true.
Proof.
  apply (scroll_target_highlights page_ab [{| label := js "B"; href := js "#b" |}]
           {| label := js "B"; href := js "#b" |} {| el_id := js "b" |}
           [sample "a" 0.9 false; sample "b" 0.2 true] (sample "b" 0.2 true) (js "a")).
  - left; reflexivity.
  - reflexivity.
  - reflexivity.
  - reflexivity.
Defined.

(** X7.  The observed elements are those of the configured ids that
    [getElementById] resolves, in the order of the list: an id that
    resolves to nothing is skipped and displaces no other. *)
Theorem els_resolved_ids (doc : Document) (l : list JSString) :
  map el_id (els doc l)
  = filter (fun id => match getElementById doc id with
                      | Some _ => true
                      | None => false
                      end) l.
Proof.
  unfold els. induction l as [| id l IH]; simpl; [reflexivity |].
  destruct (getElementById doc id) as [el |] eqn:E; simpl.
  - apply getElementById_some in E as (-> & _). rewrite IH. reflexivity.
  - assumption.
Qed.

(** X8.  When no list passed to the hook, at the first render or at a
    later one, resolves to an element, no observer is ever created and
    the active section stays what the first render made it. *)
Theorem unresolved_stays_initial (doc : Document) (ids0 : list JSString) (h : Hook)
    (Hnone : observes doc ids0 = false)
    (Hr : reaches doc (unresolved doc) ids0 h) :
  h_observed h = [] /\ h_active h = initial ids0.
Proof.
  assert (Hels : forall l, observes doc l = false -> els doc l = []).
  { intros l H. unfold observes in H. destruct (els doc l); [reflexivity | discriminate]. }
  induction Hr as [| h ids' Hr [Ho Ha] Hun | h entries Hr [Ho Ha] Hw].
  - split; [apply Hels; assumption | reflexivity].
  - unfold rerender. destruct (str_eqb (deps ids') (h_key h)); simpl.
    + split; assumption.
    + split; [apply Hels; exact Hun | assumption].
  - unfold deliver; simpl. split; [assumption |].
    unfold watched in Hw. rewrite Ho in Hw.
    destruct entries as [| e entries]; [exact Ha |].
    inversion Hw as [| ? ? Hin _]; subst. destruct Hin.
Qed.

Lemma unresolved_stays_initial_witness :
  h_observed (deliver [] (rerender page_ab [js "y"] (mount page_ab [js "x"]))) = []
  /\ h_active (deliver [] (rerender page_ab [js "y"] (mount page_ab [js "x"])))
     = initial [js "x"].
Proof.
  apply (unresolved_stays_initial page_ab [js "x"]).
  - reflexivity.
  - apply reaches_batch; [| constructor].
    apply reaches_rerender; [apply reaches_mount | reflexivity].
Defined.

Lemma onIntersect_cases (entries : list Entry) :
  (forall active, onIntersect entries active = active)
  \/ (exists id, id <> js "" /\ forall active, onIntersect entries active = id).
Proof.
  unfold onIntersect.
  destruct (hd_error (sort compareFn (filter isIntersecting entries))) as [v |].
  - destruct (truthy (el_id (target v))) eqn:E.
    + right. exists (el_id (target v)). split; [| reflexivity].
      destruct (el_id (target v)); discriminate.
    + left; reflexivity.
  - left; reflexivity.
Qed.

(** X9.  The hook keeps no memory of earlier batches: after any run of
    batches the active section is either the one it started from or a
    non-empty id that one batch of the run gives from every state; and
    a batch delivered twice does what it does once. *)
Theorem batches_last_wins (bs : list (list Entry)) (active : JSString) :
  (batches bs active = active
   \/ exists b, In b bs /\ batches bs active <> js ""
                /\ forall a, onIntersect b a = batches bs active)
  /\ (forall b, onIntersect b (onIntersect b active) = onIntersect b active).
Proof.
  split.
  - unfold batches. induction bs as [| b bs IH] using rev_ind; [left; reflexivity |].
    rewrite fold_left_app. simpl.
    destruct (onIntersect_cases b) as [Hid | (id & Hne & Hc)].
    + rewrite Hid. destruct IH as [IH | (b' & Hin & Hn & Hb')]; [left; assumption |].
      right. exists b'. split; [apply in_or_app; left; assumption | split; assumption].
    + right. exists b. rewrite Hc. split; [apply in_or_app; right; left; reflexivity |].
      split; [assumption | exact Hc].
  - intros b. destruct (onIntersect_cases b) as [Hid | (id & _ & Hc)].
    + rewrite !Hid. reflexivity.
    + rewrite !Hc. reflexivity.
Qed.

End useActiveSectionMore.

(** ** The order of a batch, and the key of the effect *)

Section useActiveSectionOrder.

Import useActiveSection.

Lemma sort_head_strict (m1 m2 : list Entry) (v : Entry) :
  (forall e, In e (m1 ++ m2) -> intersectionRatio e < intersectionRatio v) ->
  hd_error (sort compareFn (m1 ++ v :: m2)) = Some v.
Proof.
  induction m1 as [| x m1 IH]; intros H.
  - simpl app. simpl sort.
    destruct (sort compareFn m2) as [| y s] eqn:Es; [reflexivity |].
    assert (Hy : In y m2).
    { apply (Permutation_in y (Permutation_sym (sort_perm m2))).
      rewrite Es. left; reflexivity. }
    simpl. unfold compareFn at 1.
    destruct (Qltb 0 (intersectionRatio y - intersectionRatio v)) eqn:E; [| reflexivity].
    apply Qltb_lt in E. specialize (H y Hy). lra.
  - change ((x :: m1) ++ v :: m2) with (x :: (m1 ++ v :: m2)). simpl sort.
    assert (IH' : hd_error (sort compareFn (m1 ++ v :: m2)) = Some v).
    { apply IH. intros e He. apply H. right; assumption. }
    destruct (sort compareFn (m1 ++ v :: m2)) as [| y s]; [discriminate |].
    simpl in IH'. injection IH' as ->.
    simpl. unfold compareFn at 1.
    destruct (Qltb 0 (intersectionRatio v - intersectionRatio x)) eqn:E; [reflexivity |].
    apply Qltb_ge in E. specialize (H x (or_introl eq_refl)). lra.
Qed.

Lemma filter_strict_head (l1 l2 : list Entry) (v : Entry) :
  isIntersecting v = true ->
  (forall e, In e (l1 ++ l2) -> isIntersecting e = true ->
             intersectionRatio e < intersectionRatio v) ->
  hd_error (sort compareFn (filter isIntersecting (l1 ++ v :: l2))) = Some v.
Proof.
  intros Hv H. rewrite filter_app. simpl. rewrite Hv.
  apply sort_head_strict. intros e He.
  rewrite <- filter_app in He. apply filter_In in He as [Hin Hi]. auto.
Qed.

(** X10.  When one intersecting sample has a ratio strictly above that
    of every other intersecting sample, the batch gives its id in
    whatever order the observer lists the samples: the order of a batch
    matters for ties only. *)
Theorem onIntersect_order_free (l1 l2 entries' : list Entry) (v : Entry) (active : JSString)
    (Hv : isIntersecting v = true)
    (Hid : truthy (el_id (target v)) = true)
    (Hmax : forall e, In e (l1 ++ l2) -> isIntersecting e = true ->
                      intersectionRatio e < intersectionRatio v)
    (Hperm : Permutation (l1 ++ v :: l2) entries') :
  onIntersect (l1 ++ v :: l2) active = el_id (target v)
  /\ onIntersect entries' active = el_id (target v).
Proof.
  split.
  - unfold onIntersect. rewrite (filter_strict_head l1 l2 v Hv Hmax), Hid. reflexivity.
  - assert (Hin : In v entries').
    { apply (Permutation_in v Hperm). apply in_or_app. right; left; reflexivity. }
    apply in_split in Hin as (r1 & r2 & ->).
    apply Permutation_app_inv in Hperm.
    unfold onIntersect. rewrite (filter_strict_head r1 r2 v Hv), Hid; [reflexivity |].
    intros e He. apply Hmax.
    apply (Permutation_in e (Permutation_sym Hperm) He).
Qed.

Lemma onIntersect_order_free_witness :
  onIntersect ([sample "a" 0.5 true] ++ sample "b" 0.7 true :: []) (js "home") = js "b"
  /\ onIntersect [sample "b" 0.7 true; sample "a" 0.5 true] (js "home") = js "b".
Proof.
  apply (onIntersect_order_free [sample "a" 0.5 true] []
           [sample "b" 0.7 true; sample "a" 0.5 true] (sample "b" 0.7 true) (js "home")).
  - reflexivity.
  - reflexivity.
  - intros e [<- | []] _. reflexivity.
  - apply perm_swap.
Defined.

Lemma deps_cons (x : JSString) (l : list JSString) :
  deps (x :: l) = x ++ match l with
                       | [] => []
                       | _ => 124%N :: deps l
                       end.
Proof. destruct l; [symmetry; apply app_nil_r | reflexivity]. Qed.

Lemma barfree_split (x x' t t' : JSString) :
  barfree x -> barfree x' ->
  (t = [] \/ exists r, t = 124%N :: r) ->
  (t' = [] \/ exists r, t' = 124%N :: r) ->
  x ++ t = x' ++ t' -> x = x' /\ t = t'.
Proof.
  unfold barfree. revert x'. induction x as [| c x IH]; intros x' Hx Hx' Ht Ht' E.
  - destruct x' as [| c' x']; [auto |].
    simpl in E. exfalso. destruct Ht as [-> | [r ->]]; [discriminate |].
    injection E as <- _. apply Hx'. left; reflexivity.
  - destruct x' as [| c' x'].
    + simpl in E. exfalso. destruct Ht' as [-> | [r ->]]; [discriminate |].
      injection E as -> _. apply Hx. left; reflexivity.
    + simpl in E. injection E as -> E.
      destruct (IH x') as [-> ->]; auto.
      * intros H. apply Hx. right; assumption.
      * intros H. apply Hx'. right; assumption.
Qed.

Lemma deps_tail_shape (l : list JSString) :
  match l with [] => [] | _ => 124%N :: deps l end = []
  \/ exists r, match l with [] => [] | _ => 124%N :: deps l end = 124%N :: r.
Proof. destruct l; [left; reflexivity | right; eexists; reflexivity]. Qed.

Lemma deps_injective (l : list JSString) :
  forall l', Forall barfree l -> Forall barfree l' ->
             l <> [] -> l' <> [] -> deps l = deps l' -> l = l'.
Proof.
  induction l as [| x l IH]; intros l' Hl Hl' Hne Hne' E; [congruence |].
  destruct l' as [| x' l']; [congruence |].
  rewrite !deps_cons in E.
  inversion Hl as [| ? ? Hx Hl1]; subst. inversion Hl' as [| ? ? Hx' Hl1']; subst.
  destruct (barfree_split x x' _ _ Hx Hx' (deps_tail_shape l) (deps_tail_shape l') E)
    as [-> Et].
  destruct l as [| y l]; destruct l' as [| y' l']; try discriminate; [reflexivity |].
  injection Et as Et. f_equal. apply IH; auto; discriminate.
Qed.

Lemma deps_empty (l : list JSString) :
  Forall barfree l -> deps l = [] -> l = [] \/ l = [js ""].
Proof.
  intros Hl E. destruct l as [| x l]; [left; reflexivity |]. right.
  rewrite deps_cons in E. apply app_nil_inv in E as [-> Et].
  destruct l; [reflexivity | discriminate].
Qed.

(** X11.  For ids that do not contain the separator [|], two lists with
    the same effect key resolve to the same elements and start from the
    same active section: keeping the old observer when the key has not
    changed loses nothing. *)
Theorem deps_sound (doc : Document) (l l' : list JSString)
    (Hl : Forall barfree l) (Hl' : Forall barfree l')
    (Hkey : deps l = deps l') :
  els doc l = els doc l' /\ initial l = initial l'.
Proof.
  assert (Hempty : forall m, m = [] \/ m = [js ""] ->
                             els doc m = [] /\ initial m = js "").
  { intros m [-> | ->]; split; reflexivity. }
  destruct l as [| x l1].
  - destruct (Hempty _ (deps_empty l' Hl' (eq_sym Hkey))) as [-> ->].
    split; reflexivity.
  - destruct l' as [| x' l1'].
    + destruct (Hempty _ (deps_empty (x :: l1) Hl Hkey)) as [-> ->].
      split; reflexivity.
    + rewrite (deps_injective (x :: l1) (x' :: l1') Hl Hl') by (discriminate || assumption).
      split; reflexivity.
Qed.

Lemma deps_sound_witness :
  els page_ab [] = els page_ab [js ""] /\ initial [] = initial [js ""].
Proof.
  apply (deps_sound page_ab [] [js ""]).
  - constructor.
  - constructor; [intros [] | constructor].
  - reflexivity.
Defined.

End useActiveSectionOrder.

(** ** More on the page glow *)

Section MouseGlowMore.

Import MouseGlow.

Lemma or1_nonzero (a : Q) : ~ or1 a == 0.
Proof.
  unfold or1. destruct (Qeq_bool a 0) eqn:E.
  - intros H. discriminate H.
  - intros H. apply Qeq_bool_neq in E. contradiction.
Qed.

Lemma or1_positive (a : Q) : 0 <= a -> 0 < or1 a /\ (0 < a -> or1 a == a).
Proof.
  intros Ha. unfold or1. destruct (Qeq_bool a 0) eqn:E.
  - split; [reflexivity |]. apply Qeq_bool_iff in E. intros H. lra.
  - apply Qeq_bool_neq in E. split; [| reflexivity].
    destruct (Qlt_le_dec 0 a) as [H | H]; [assumption |].
    exfalso. apply E. lra.
Qed.

Lemma clamp_in_range (l : Q) : 0 <= l -> l <= 100 -> Qmax 0 (Qmin 100 l) == l.
Proof.
  intros H0 H1.
  destruct (Q.min_spec 100 l) as [[Ha Ea] | [Ha Ea]];
  destruct (Q.max_spec 0 (Qmin 100 l)) as [[Hb Eb] | [Hb Eb]];
  rewrite ?Eb; rewrite ?Ea in *; lra.
Qed.

(** X12.  A pointer inside a window of positive size is turned into
    percentages in [0, 100], and the gradient drawn for these values is
    centred on them: the clamp changes nothing for a pointer in the
    window.  A window of width or height 0 is taken as 1, so the
    listener never divides by zero. *)
Theorem glow_follows_pointer (clientX clientY innerWidth innerHeight : Q)
    (Hw : 0 < innerWidth) (Hh : 0 < innerHeight)
    (Hx : 0 <= clientX /\ clientX <= innerWidth)
    (Hy : 0 <= clientY /\ clientY <= innerHeight) :
  fst (onMove clientX clientY innerWidth innerHeight) == clientX / innerWidth * 100
  /\ snd (onMove clientX clientY innerWidth innerHeight) == clientY / innerHeight * 100
  /\ atX (bg (fst (onMove clientX clientY innerWidth innerHeight))
             (snd (onMove clientX clientY innerWidth innerHeight)))
     == clientX / innerWidth * 100
  /\ atY (bg (fst (onMove clientX clientY innerWidth innerHeight))
             (snd (onMove clientX clientY innerWidth innerHeight)))
     == clientY / innerHeight * 100
  /\ (forall size, ~ or1 size == 0).
Proof.
  destruct (or1_positive innerWidth (Qlt_le_weak _ _ Hw)) as [_ Ew].
  destruct (or1_positive innerHeight (Qlt_le_weak _ _ Hh)) as [_ Eh].
  specialize (Ew Hw). specialize (Eh Hh).
  assert (Px : 0 <= clientX / innerWidth /\ clientX / innerWidth <= 1).
  { split; [apply Qle_shift_div_l | apply Qle_shift_div_r]; lra. }
  assert (Py : 0 <= clientY / innerHeight /\ clientY / innerHeight <= 1).
  { split; [apply Qle_shift_div_l | apply Qle_shift_div_r]; lra. }
  unfold onMove, bg; simpl.
  rewrite Ew, Eh.
  repeat split; try reflexivity.
  - apply clamp_in_range; lra.
  - apply clamp_in_range; lra.
  - intros size. apply or1_nonzero.
Qed.

Lemma glow_follows_pointer_witness :
  atX (bg (fst (onMove 200 150 800 600)) (snd (onMove 200 150 800 600))) == 200 / 800 * 100.
Proof.
  apply (glow_follows_pointer 200 150 800 600); unfold Qlt, Qle; simpl; lia.
Defined.

(** X13.  The clamp is monotone: when a spring value grows, the centre
    of the gradient never moves the other way. *)
Theorem glow_monotone (lx lx' ly ly' : Q) (Hx : lx <= lx') (Hy : ly <= ly') :
  atX (bg lx ly) <= atX (bg lx' ly') /\ atY (bg lx ly) <= atY (bg lx' ly').
Proof.
  unfold bg; simpl. split.
  - apply Q.max_le_compat_l. apply Q.min_le_compat_l. assumption.
  - apply Q.max_le_compat_l. apply Q.min_le_compat_l. assumption.
Qed.

Lemma glow_monotone_witness :
  atX (bg (-3) 40) <= atX (bg 120 50) /\ atY (bg (-3) 40) <= atY (bg 120 50).
Proof.
  apply (glow_monotone (-3) 120 40 50); unfold Qle; simpl; lia.
Defined.

End MouseGlowMore.

(** ** More on the tilting card *)

Section TiltCardMore.

Import TiltCard.

Lemma div_monotone (a b w : Q) : 0 < w -> a <= b -> a / w <= b / w.
Proof.
  intros Hw Hab. unfold Qdiv. apply Qmult_le_compat_r; [assumption |].
  apply Qlt_le_weak. apply Qinv_lt_0_compat. assumption.
Qed.

(** X16.  On a bounding box of positive size rotateY grows with the
    pointer's x and rotateX falls as its y grows; the bounds are
    attained at the edges: rotateY is -5 at the left edge and 5 at the
    right one, rotateX is 5 at the top edge and -5 at the bottom one. *)
Theorem tilt_monotone (e e' : PointerEvent) (r : DOMRect) (t : Tilt)
    (Hw : 0 < r_width r) (Hh : 0 < r_height r) :
  (clientX e <= clientX e' -> ry (onMove e r t) <= ry (onMove e' r t))
  /\ (clientY e <= clientY e' -> rx (onMove e' r t) <= rx (onMove e r t))
  /\ (clientX e == r_left r -> ry (onMove e r t) == -5)
  /\ (clientX e == r_left r + r_width r -> ry (onMove e r t) == 5)
  /\ (clientY e == r_top r -> rx (onMove e r t) == 5)
  /\ (clientY e == r_top r + r_height r -> rx (onMove e r t) == -5).
Proof.
  unfold onMove, setTilt; simpl.
  repeat split.
  - intros H.
    assert (Hn : normX e r <= normX e' r) by (apply div_monotone; [assumption | lra]).
    lra.
  - intros H.
    assert (Hn : normY e r <= normY e' r) by (apply div_monotone; [assumption | lra]).
    lra.
  - intros H. rewrite (normalised (clientX e) (r_left r) (r_width r) 0 Hw); lra.
  - intros H. rewrite (normalised (clientX e) (r_left r) (r_width r) 1 Hw); lra.
  - intros H. unfold normY. rewrite (normalised (clientY e) (r_top r) (r_height r) 0 Hh); lra.
  - intros H. unfold normY. rewrite (normalised (clientY e) (r_top r) (r_height r) 1 Hh); lra.
Qed.

Lemma tilt_monotone_witness :
  ry (onMove {| clientX := 110; clientY := 20 |}
             {| r_left := 10; r_top := 20; r_width := 100; r_height := 50 |} initial) == 5.
Proof.
  refine (proj1 (proj2 (proj2 (proj2
            (tilt_monotone {| clientX := 110; clientY := 20 |}
               {| clientX := 110; clientY := 20 |}
               {| r_left := 10; r_top := 20; r_width := 100; r_height := 50 |}
               initial _ _)))) _); reflexivity.
Defined.

End TiltCardMore.

(** ** More on the typewriter title *)

Section TypewriterMore.

Import GradientTypeTitle.

Variable full : JSString.




Lemma step_done (ev : Event) (st : State) : done st = true -> done (step full ev st) = true.
Proof.
  intros Hd. destruct ev as [| | m]; simpl.
  - unfold tick. destruct (timer st) as [i |]; [| assumption].
    destruct (length full <=? S i)%nat; simpl; [reflexivity | assumption].
  - unfold render. destruct (pending st) as [v |]; [| assumption].
    destruct (Bool.eqb v (reduced st)); [assumption |].
    destruct v; simpl; assumption.
  - assumption.
Qed.

(** X18.  Once [done] is set nothing resets it: not a tick, not a render,
    not a change of the preference, although an interval started later
    types the text again from its first character. *)
Theorem done_stays (evs : list Event) (st : State) (Hd : done st = true) :
  done (run full evs st) = true.
Proof.
  unfold run. induction evs as [| ev evs IH] using rev_ind; [assumption |].
  rewrite fold_left_app. simpl. apply step_done. assumption.
Qed.

Lemma ticks_running_from (r : bool) (p : option bool) (txt : JSString) (d : bool) (k : nat) :
  (1 <= k)%nat -> (k < length full)%nat ->
  ticks full k {| reduced := r; pending := p; text := txt; done := d;
                  timer := Some 0%nat |}
  = {| reduced := r; pending := p; text := firstn k full; done := d; timer := Some k |}.
Proof.
  induction k as [| k IH]; intros H1 Hk; [lia |].
  cbn [ticks]. destruct k as [| k'].
  - cbn [ticks]. unfold tick; cbn [timer].
    destruct (length full <=? 1)%nat eqn:E; [apply Nat.leb_le in E; lia | reflexivity].
  - rewrite IH by lia. unfold tick; cbn [timer].
    destruct (length full <=? S (S k'))%nat eqn:E; [apply Nat.leb_le in E; lia | reflexivity].
Qed.

Lemma ticks_finished_from (r : bool) (p : option bool) (txt : JSString) (d : bool) :
  (1 <= length full)%nat ->
  ticks full (length full)
        {| reduced := r; pending := p; text := txt; done := d; timer := Some 0%nat |}
  = {| reduced := r; pending := p; text := full; done := true; timer := None |}.
Proof.
  intros Hlen. destruct (length full) as [| n] eqn:E; [lia |].
  cbn [ticks]. destruct n as [| n'].
  - cbn [ticks]. unfold tick; cbn [timer]. rewrite E. simpl Nat.leb.
    unfold slice0. rewrite <- E, firstn_all. reflexivity.
  - rewrite ticks_running_from by lia. unfold tick; cbn [timer].
    rewrite E, Nat.leb_refl. unfold slice0. rewrite <- E, firstn_all. reflexivity.
Qed.

(** X19.  When the preference goes from reduced motion to motion, the
    render that takes the change up starts the interval from the first
    character, whatever text was shown: after [k] ticks,
    [1 <= k <= length full], the text is the prefix of length [k], and
    after [length full] ticks the whole string is shown, the interval is
    cleared and [done] is set. *)
Theorem typewriter_resumes (st : State) (k : nat)
    (Hred : reduced st = true) (H1 : (1 <= k)%nat) (Hk : (k <= length full)%nat) :
  text (ticks full k (render (change false st))) = firstn k full
  /\ text (ticks full (length full) (render (change false st))) = full
  /\ done (ticks full (length full) (render (change false st))) = true
  /\ timer (ticks full (length full) (render (change false st))) = None.
Proof.
  assert (E : render (change false st)
              = {| reduced := false; pending := None; text := text st; done := done st;
                   timer := Some 0%nat |}).
  { unfold render, change, useReducedMotionPref.onChange; simpl. rewrite Hred. reflexivity. }
  rewrite E, ticks_finished_from by lia. simpl.
  repeat split.
  destruct (Nat.eq_dec k (length full)) as [-> | Hne].
  - rewrite ticks_finished_from by lia. simpl. symmetry. apply firstn_all.
  - rewrite ticks_running_from by lia. reflexivity.
Qed.

End TypewriterMore.

Lemma typewriter_resumes_witness :
  GradientTypeTitle.text
    (GradientTypeTitle.ticks (js "abc") 2
       (GradientTypeTitle.render
          (GradientTypeTitle.change false (GradientTypeTitle.start (js "abc") true))))
  = firstn 2 (js "abc").
Proof.
  apply (typewriter_resumes (js "abc") (GradientTypeTitle.start (js "abc") true) 2).
  - reflexivity.
  - lia.
  - simpl. lia.
Defined.

Lemma done_stays_witness :
  GradientTypeTitle.done
    (GradientTypeTitle.run (js "abc")
       [GradientTypeTitle.Change true; GradientTypeTitle.Render;
        GradientTypeTitle.Change false; GradientTypeTitle.Render; GradientTypeTitle.Tick]
       (GradientTypeTitle.ticks (js "abc") 3 (GradientTypeTitle.start (js "abc") false)))
  = true.
Proof.
  apply done_stays. reflexivity.
Defined.

(** ** More on the contact form *)

Section ContactFormMore.

Import ContactForm.

Lemma dropWhile_all (p : N -> bool) (s : JSString) :
  Forall (fun c => p c = true) s -> dropWhile p s = [].
Proof. induction 1 as [| c s Hc _ IH]; simpl; [reflexivity | rewrite Hc; assumption]. Qed.

Lemma dropWhile_app_all (p : N -> bool) (a t : JSString) :
  Forall (fun c => p c = true) a -> dropWhile p (a ++ t) = dropWhile p t.
Proof. induction 1 as [| c a Hc _ IH]; simpl; [reflexivity | rewrite Hc; assumption]. Qed.

Lemma dropWhile_app_keep (p : N -> bool) (s b : JSString) :
  dropWhile p s <> [] -> dropWhile p (s ++ b) = dropWhile p s ++ b.
Proof.
  induction s as [| c s IH]; simpl; intros H; [congruence |].
  destruct (p c); [apply IH; assumption | reflexivity].
Qed.

Lemma dropWhile_nil_all (p : N -> bool) (s : JSString) :
  dropWhile p s = [] -> Forall (fun c => p c = true) s.
Proof.
  induction s as [| c s IH]; simpl; intros H; [constructor |].
  destruct (p c) eqn:E; [constructor; auto | discriminate].
Qed.

(** White space around a string does not show after [trim]. *)
Lemma trim_pad (a s b : JSString) :
  Forall (fun c => is_whitespace c = true) a ->
  Forall (fun c => is_whitespace c = true) b ->
  trim (a ++ s ++ b) = trim s.
Proof.
  intros Ha Hb. unfold trim, trimStart.
  rewrite (dropWhile_app_all is_whitespace a (s ++ b) Ha).
  destruct (dropWhile is_whitespace s) as [| c t] eqn:E.
  - apply dropWhile_nil_all in E.
    rewrite (dropWhile_app_all is_whitespace s b E), (dropWhile_all is_whitespace b Hb).
    reflexivity.
  - rewrite dropWhile_app_keep by (rewrite E; discriminate). rewrite E.
    unfold trimEnd. rewrite rev_app_distr.
    rewrite (dropWhile_app_all is_whitespace (rev b)); [reflexivity |].
    apply Forall_rev. assumption.
Qed.

Lemma plain_spec (c : N) : plain c = true -> is_whitespace c = false /\ c <> 64%N.
Proof.
  unfold plain. rewrite negb_true_iff, orb_false_iff, N.eqb_neq. tauto.
Qed.

Lemma count_plain (l : JSString) :
  Forall (fun c => plain c = true) l -> count_occ N.eq_dec l 64%N = 0%nat.
Proof.
  induction 1 as [| c l Hc _ IH]; simpl; [reflexivity |].
  apply plain_spec in Hc as [_ Hc].
  destruct (N.eq_dec c 64); [congruence | assumption].
Qed.

Lemma plain_not_space (l : JSString) :
  Forall (fun c => plain c = true) l -> Forall (fun c => is_whitespace c = false) l.
Proof.
  intros H. eapply Forall_impl; [| exact H]. intros c Hc. apply plain_spec in Hc. tauto.
Qed.

Lemma shape_facts (s : JSString) :
  email_shape s ->
  count_occ N.eq_dec s 64%N = 1%nat
  /\ Forall (fun c => is_whitespace c = false) s
  /\ (5 <= length s)%nat.
Proof.
  intros (l & d & t & -> & Hl & Hd & Ht & Al & Ad & At).
  repeat split.
  - rewrite !count_occ_app. simpl.
    rewrite (count_plain l Al), (count_plain d Ad), (count_plain t At). reflexivity.
  - repeat (apply Forall_app; split); try (apply plain_not_space; assumption);
      repeat constructor.
  - rewrite !length_app. simpl.
    destruct l; [congruence |]. destruct d; [congruence |]. destruct t; [congruence |].
    simpl. lia.
Qed.

(** X20.  An email that the pattern accepts has exactly one [@], no
    white space, and at least five characters. *)
Theorem accepted_email (s : JSString) (Hok : test emailPattern s = true) :
  count_occ N.eq_dec s 64%N = 1%nat
  /\ Forall (fun c => is_whitespace c = false) s
  /\ (5 <= length s)%nat.
Proof.
  apply shape_facts. apply emailPattern_shape. assumption.
Qed.

Lemma accepted_email_witness :
  count_occ N.eq_dec (js "a@b.co") 64%N = 1%nat
  /\ Forall (fun c => is_whitespace c = false) (js "a@b.co")
  /\ (5 <= length (js "a@b.co"))%nat.
Proof.
  apply (accepted_email (js "a@b.co")). reflexivity.
Defined.

(** X21.  For [canSend] to hold, the fields as typed must have at least
    2 characters for the name, 5 for the email and 10 for the message,
    and the status must not be [sending]. *)
Theorem canSend_needs (f : Form) (Hsend : canSend f = true) :
  (2 <= length (name f))%nat /\ (5 <= length (email f))%nat
  /\ (10 <= length (message f))%nat /\ status f <> sending.
Proof.
  unfold canSend in Hsend.
  rewrite !andb_true_iff, !Nat.leb_le, status_eqb_sending in Hsend.
  destruct Hsend as (((Hn & He) & Hm) & Hs).
  apply emailPattern_shape, shape_facts in He as (_ & _ & He).
  pose proof (trim_length (name f)). pose proof (trim_length (email f)).
  pose proof (trim_length (message f)).
  repeat split; try lia. assumption.
Qed.

Lemma canSend_needs_witness :
  (2 <= length (name ana))%nat /\ (5 <= length (email ana))%nat
  /\ (10 <= length (message ana))%nat /\ status ana <> sending.
Proof.
  apply (canSend_needs ana). reflexivity.
Defined.

(** X22.  [canSend] does not see white space around the name, the email
    or the message, nor the company and the goal: padding the three
    fields with white space and replacing the other two changes
    nothing. *)
Theorem canSend_padding (f : Form) (a1 b1 a2 b2 a3 b3 c g : JSString)
    (H1 : Forall (fun x => is_whitespace x = true) (a1 ++ b1))
    (H2 : Forall (fun x => is_whitespace x = true) (a2 ++ b2))
    (H3 : Forall (fun x => is_whitespace x = true) (a3 ++ b3)) :
  canSend {| name := a1 ++ name f ++ b1; email := a2 ++ email f ++ b2;
             company := c; goal := g;
             message := a3 ++ message f ++ b3; status := status f |}
  = canSend f.
Proof.
  apply Forall_app in H1 as [? ?], H2 as [? ?], H3 as [? ?].
  unfold canSend; simpl. rewrite !trim_pad by assumption. reflexivity.
Qed.

Lemma canSend_padding_witness :
  canSend {| name := js " " ++ name ana ++ js "  "; email := js "" ++ email ana ++ js " ";
             company := js "ACME"; goal := js "Reposicionar a marca";
             message := js "" ++ message ana ++ js ""; status := status ana |}
  = canSend ana.
Proof.
  apply (canSend_padding ana); repeat constructor.
Defined.

Lemma calls_status (l : list Setter) :
  forallb is_edit l = true -> forall f, status (calls l f) = status f.
Proof.
  unfold calls. induction l as [| a l IH]; simpl; intros H f; [reflexivity |].
  apply andb_true_iff in H as [Ha Hl].
  rewrite (IH Hl). destruct a; simpl in *; congruence.
Qed.

Lemma sending_rejected (g : Form) : status g = sending -> canSend g = false.
Proof.
  intros H. unfold canSend. rewrite H. simpl. apply andb_false_r.
Qed.

(** X23.  While the status is [sending] a submit event does nothing,
    whatever is typed in the fields meanwhile; once the status is
    [sent] the form that was accepted is accepted again, so a second
    submission can start while the confirmation shows. *)
Theorem resubmission (f : Form) (es : list Setter) (edits : list (list Setter))
    (Hsend : canSend f = true) (Hes : forallb is_edit es = true) :
  submit edits (calls es (call (setStatus sending) f))
  = [calls es (call (setStatus sending) f)]
  /\ canSend (call (setStatus sent) f) = true.
Proof.
  split.
  - unfold submit, onSubmit.
    rewrite sending_rejected; [reflexivity |].
    rewrite calls_status by assumption. reflexivity.
  - unfold canSend in *. cbn [call name email message status].
    rewrite !andb_true_iff in *. destruct Hsend as (Hfields & _).
    split; [exact Hfields | reflexivity].
Qed.

Lemma resubmission_witness :
  submit [] (calls [setName (js "Bia")] (call (setStatus sending) ana))
  = [calls [setName (js "Bia")] (call (setStatus sending) ana)]
  /\ canSend (call (setStatus sent) ana) = true.
Proof.
  apply (resubmission ana [setName (js "Bia")] []); reflexivity.
Defined.

End ContactFormMore.

(** ** Submissions that overlap *)

Section EventLoop.

Import ContactForm.

Lemma onSubmit_accepted (f : Form) : canSend f = true -> onSubmit f = onSubmit ana.
Proof. intros H. unfold onSubmit. rewrite H. reflexivity. Qed.

Lemma resume_continuation (p : Async) :
  forall f k, snd (resume p f) = Some k -> In k (continuations p).
Proof.
  induction p as [| a p IH | n p IH]; simpl; intros f k H.
  - discriminate.
  - apply (IH _ _ H).
  - injection H as <-. left; reflexivity.
Qed.

Lemma continuations_incl (q p : Async) :
  In p (continuations q) -> incl (continuations p) (continuations q).
Proof.
  induction q as [| a q IH | n q IH]; simpl; intros H.
  - contradiction.
  - apply IH; assumption.
  - destruct H as [-> | H].
    + apply incl_tl, incl_refl.
    + apply incl_tl. apply IH; assumption.
Qed.

(** Every pending timer belongs to an accepted submission. *)
Lemma running_timers (l : Loop) :
  running l -> Forall (fun p => In p (continuations (onSubmit ana))) (timers l).
Proof.
  induction 1 as [| l b l' Hr IH Ht]; [constructor |].
  destruct Ht as [f ts | f ts1 p ts2 | f ts a Ha]; cbn [timers] in *.
  - apply Forall_app. split; [assumption |].
    destruct (snd (resume (onSubmit f) f)) as [k |] eqn:E; cbn [suspended]; [| constructor].
    constructor; [| constructor].
    destruct (canSend f) eqn:Ec.
    + rewrite <- (onSubmit_accepted f Ec). apply (resume_continuation _ _ _ E).
    + unfold onSubmit in E. rewrite Ec in E. discriminate.
  - apply Forall_app in IH as [H1 H2].
    inversion H2 as [| ? ? Hp H2']; subst.
    apply Forall_app. split; [assumption |].
    apply Forall_app. split; [| assumption].
    destruct (snd (resume p f)) as [k |] eqn:E; cbn [suspended]; [| constructor].
    constructor; [| constructor].
    apply (continuations_incl _ _ Hp). apply (resume_continuation _ _ _ E).
  - assumption.
Qed.

Lemma last_segment_resets (p : Async) (f : Form) :
  In p (continuations (onSubmit ana)) ->
  snd (resume p f) = None -> fst (resume p f) = initial.
Proof.
  intros Hin. vm_compute in Hin.
  destruct Hin as [<- | [<- | []]]; simpl; intros H; [discriminate | reflexivity].
Qed.

(** X24.  However submissions overlap and whatever is typed meanwhile,
    each time the last timer of a submission fires the form is the
    initial form: every field empty, the goal at its default, the
    status [idle]. *)
Theorem last_timer_resets (l l' : Loop) (Hr : running l) (Ht : turn l true l') :
  form l' = initial.
Proof.
  pose proof (running_timers l Hr) as Hall.
  inversion Ht as [f ts | f ts1 p ts2 | f ts a Ha]; subst; cbn [timers form] in *.
  apply Forall_app in Hall as [_ Hall].
  inversion Hall as [| ? ? Hp _]; subst.
  destruct (snd (resume p f)) eqn:E; [discriminate |].
  apply last_segment_resets; assumption.
Qed.

Lemma confirming_running : running confirming.
Proof.
  pose proof running_mounted as R0.
  pose proof (running_turn _ _ _ R0
                (turn_edit initial [] (setName (js "Ana")) eq_refl)) as R1.
  pose proof (running_turn _ _ _ R1
                (turn_edit _ [] (setEmail (js "a@b.co")) eq_refl)) as R2.
  pose proof (running_turn _ _ _ R2
                (turn_edit _ [] (setMessage (js "1234567890")) eq_refl)) as R3.
  pose proof (running_turn _ _ _ R3 (turn_submit _ [])) as R4.
  pose proof (running_turn _ _ _ R4
                (turn_fire (call (setStatus sending) ana) [] after_sending [])) as R5.
  exact R5.
Defined.

Lemma last_timer_resets_witness :
  form {| form := fst (resume after_sent (call (setStatus sent) ana));
          timers := [] ++ suspended (snd (resume after_sent (call (setStatus sent) ana)))
                       ++ [] |}
  = initial.
Proof.
  apply (last_timer_resets confirming _ confirming_running
           (turn_fire (call (setStatus sent) ana) [] after_sent [])).
Defined.

End EventLoop.

(** ** The cycle of one submission *)

Section SubmissionCycle.

Import ContactForm.

(** C3, amended.  For a draft that may be sent and whose status is
    [idle], with no timer of another submission pending: the submit
    event sets the status to [sending] and suspends on the first timer;
    that timer sets the status to [sent] and suspends on the second;
    that timer sets every field to its initial value, [goal] to
    "Crescer com performance", and the status to [idle].  Whatever is
    typed in the fields while the timers run, the status goes idle,
    sending, sent, idle in this order, the fields are kept until the
    last timer fires, and the form is then the initial form. *)
Theorem submit_cycle_from_idle (f : Form) (es1 es2 : list Setter)
    (Hsend : canSend f = true) (Hidle : status f = idle)
    (He1 : forallb is_edit es1 = true) (He2 : forallb is_edit es2 = true) :
  turn {| form := f; timers := [] |} false
       {| form := call (setStatus sending) f; timers := [after_sending] |}
  /\ turn {| form := calls es1 (call (setStatus sending) f); timers := [after_sending] |}
          false
          {| form := call (setStatus sent) (calls es1 (call (setStatus sending) f));
             timers := [after_sent] |}
  /\ turn {| form := calls es2 (call (setStatus sent)
                                   (calls es1 (call (setStatus sending) f)));
             timers := [after_sent] |}
          true
          {| form := initial; timers := [] |}
  /\ map status
         [f;
          call (setStatus sending) f;
          calls es1 (call (setStatus sending) f);
          call (setStatus sent) (calls es1 (call (setStatus sending) f));
          calls es2 (call (setStatus sent) (calls es1 (call (setStatus sending) f)));
          initial]
     = [idle; sending; sending; sent; sent; idle]
  /\ submit [es1; es2] f
     = [call (setStatus sending) f;
        call (setStatus sent) (calls es1 (call (setStatus sending) f));
        initial]
  /\ name initial = js "" /\ email initial = js "" /\ company initial = js ""
  /\ message initial = js ""
  /\ goal initial = js "Crescer com performance" /\ goal initial <> js "".
Proof.
  split; [| split; [| split; [| split; [| split]]]].
  - pose proof (turn_submit f []) as T.
    rewrite (onSubmit_accepted f Hsend) in T. exact T.
  - exact (turn_fire (calls es1 (call (setStatus sending) f)) [] after_sending []).
  - exact (turn_fire (calls es2 (call (setStatus sent)
                                   (calls es1 (call (setStatus sending) f))))
             [] after_sent []).
  - cbn [map]. rewrite Hidle, !calls_status by assumption. reflexivity.
  - unfold submit. rewrite (onSubmit_accepted f Hsend). reflexivity.
  - repeat split; discriminate.
Qed.

Lemma submit_cycle_from_idle_witness :
  submit [[setName (js "Bia")]; []] ana
  = [call (setStatus sending) ana;
     call (setStatus sent) (calls [setName (js "Bia")] (call (setStatus sending) ana));
     initial].
Proof.
  refine (proj1 (proj2 (proj2 (proj2 (proj2
            (submit_cycle_from_idle ana [setName (js "Bia")] [] _ _ _ _)))))); reflexivity.
Defined.

(** C3 as stated fails: the example draft while its confirmation shows
    may be sent, and the submit event takes its status from [sent] to
    [sending], [sent] and [idle]; the cycle does not begin at [idle]. *)
Lemma submit_cycle_not_from_sent :
  canSend ana_sent = true
  /\ map status (ana_sent :: submit [] ana_sent) = [sent; sending; sent; idle]
  /\ map status (ana_sent :: submit [] ana_sent) <> [idle; sending; sent; idle].
Proof.
  split; [reflexivity |]. split; [reflexivity | discriminate].
Qed.

(** A submission accepted while the confirmation of an earlier one
    shows overlaps it: the last timer of the earlier one fires first,
    wipes the fields and sets the status to [idle] while the later one
    is pending, and the timer of the later one then sets the status to
    [sent] on the empty form. *)
Lemma overlapping_statuses :
  map status
      [ana_sent;
       fst (resume (onSubmit ana_sent) ana_sent);
       fst (resume after_sent (fst (resume (onSubmit ana_sent) ana_sent)));
       fst (resume after_sending
              (fst (resume after_sent (fst (resume (onSubmit ana_sent) ana_sent)))))]
  = [sent; sending; idle; sent].
Proof. reflexivity. Qed.

End SubmissionCycle.
